(** * The Python node printer of prettier ([src/printer-python.js])

    A shallow embedding of [printArguments] and [genericPrint], the two
    functions of the file, together with the values they read (the JSON
    form of a Python AST), the documents they build, and the path cursor
    they are called with. *)

From Stdlib Require Import String Ascii List ZArith Bool Lia Arith.
From Stdlib Require Import DecimalString DecimalPos DecimalZ Sorted Permutation.
Import ListNotations.

Set Warnings "-register-all".

Local Open Scope string_scope.
Local Open Scope list_scope.

(** ** JavaScript values

    The AST reaches the printer as parsed JSON: objects with an [ast_type]
    field, arrays, strings, numbers, booleans and [null]; a field that is
    not there reads as [undefined].  Numbers are the integers (column
    offsets, integer literals); an object is its list of fields, read by
    the first field of a name. *)

Inductive value : Type :=
| VUndef
| VNull
| VBool (b : bool)
| VNum (z : Z)
| VStr (s : string)
| VArr (elts : list value)
| VObj (fields : list (string * value)).

Fixpoint assoc (k : string) (fs : list (string * value)) : value :=
  match fs with
  | [] => VUndef
  | (k', v) :: rest => if String.eqb k k' then v else assoc k rest
  end.

(** [!v] is [negb (truthy v)]. *)
Definition truthy (v : value) : bool :=
  match v with
  | VUndef | VNull => false
  | VBool b => b
  | VNum z => negb (Z.eqb z 0)
  | VStr s => negb (String.eqb s "")
  | VArr _ | VObj _ => true
  end.

Definition nullish (v : value) : bool :=
  match v with VUndef | VNull => true | _ => false end.

Definition isArray (v : value) : bool :=
  match v with VArr _ => true | _ => false end.

(** [v.k] for a receiver that is neither [null] nor [undefined].  The
    printer reads only fields of the AST and [length]; none of them is
    inherited from a prototype, except [length] of arrays and strings. *)
Definition get (v : value) (k : string) : value :=
  match v with
  | VObj fs => assoc k fs
  | VArr l => if String.eqb k "length" then VNum (Z.of_nat (List.length l)) else VUndef
  | VStr s => if String.eqb k "length" then VNum (Z.of_nat (String.length s)) else VUndef
  | _ => VUndef
  end.

(** ** Outcomes

    A call returns a value or throws.  The file has one [throw], the
    default arm of the dispatch; the document builders throw on a part
    that is no document; the runtime itself throws a [TypeError] on a
    property read from [null] or [undefined] (and on spreading what is
    not iterable), and a [RangeError] when the call stack is used up. *)

Inductive error : Type :=
| UnknownPythonType (ast_type : value)
| InvalidDocument (part : value)
| TypeError
| StackOverflow.

Inductive result (A : Type) : Type :=
| Ok (a : A)
| Throw (e : error).

Arguments Ok {A} a.
Arguments Throw {A} e.

Definition bind {A B : Type} (c : result A) (k : A -> result B) : result B :=
  match c with
  | Ok a => k a
  | Throw e => Throw e
  end.

Notation "x <- c ;; k" := (bind c (fun x => k))
  (at level 61, c at next level, right associativity).

Fixpoint mapM {A B : Type} (f : A -> result B) (l : list A) : result (list B) :=
  match l with
  | [] => Ok []
  | x :: rest =>
      y <- f x ;;
      ys <- mapM f rest ;;
      Ok (y :: ys)
  end.

(** [v.k] for any receiver. *)
Definition get_prop (v : value) (k : string) : result value :=
  if nullish v then Throw TypeError else Ok (get v k).

(** [v[i]] for an array index [i]; a string yields its [i]-th character. *)
Definition get_index (v : value) (i : nat) : result value :=
  match v with
  | VUndef | VNull => Throw TypeError
  | VArr l => Ok (nth i l VUndef)
  | VStr s =>
      Ok (match String.get i s with
          | Some c => VStr (String c EmptyString)
          | None => VUndef
          end)
  | _ => Ok VUndef
  end.

(** ** Conversions *)

Definition string_of_Z (z : Z) : string :=
  NilZero.string_of_int (Z.to_int z).

(** [`${v}`]: the text of a value in a template literal.  (Integers of
    twenty-two digits and more print in exponent form in JavaScript; they
    are printed in full here.) *)
Fixpoint to_string (v : value) : string :=
  match v with
  | VUndef => "undefined"
  | VNull => "null"
  | VBool true => "true"
  | VBool false => "false"
  | VNum z => string_of_Z z
  | VStr s => s
  | VArr l =>
      (fix elements (l : list value) : string :=
         match l with
         | [] => ""
         | [x] => if nullish x then "" else to_string x
         | x :: rest =>
             ((if nullish x then "" else to_string x) ++ "," ++ elements rest)%string
         end) l
  | VObj _ => "[object Object]"
  end.

(** [v != "arg"].  Loose equality with a string converts an array through
    its text, so the one-element array of ["arg"] is equal to it; no
    number, boolean or plain object has the text ["arg"]. *)
Fixpoint loose_eq_arg (v : value) : bool :=
  match v with
  | VStr s => String.eqb s "arg"
  | VArr [x] => if nullish x then false else loose_eq_arg x
  | _ => false
  end.

(** The number a value stands for in arithmetic, [None] for [NaN].
    Strings, arrays and objects are taken as [NaN] (the text of a numeric
    string is not parsed). *)
Definition to_number (v : value) : option Z :=
  match v with
  | VNum z => Some z
  | VNull => Some 0%Z
  | VBool true => Some 1%Z
  | VBool false => Some 0%Z
  | _ => None
  end.

(** [v > 0]. *)
Definition gt_zero (v : value) : bool :=
  match to_number v with
  | Some z => Z.ltb 0 z
  | None => false
  end.

(** [[...v]]: the elements of an array, the characters of a string. *)
Definition spread (v : value) : result (list value) :=
  match v with
  | VArr l => Ok l
  | VStr s => Ok (map (fun c => VStr (String c EmptyString)) (list_ascii_of_string s))
  | _ => Throw TypeError
  end.

(** ** Sorting by column

    [merge.sort((a, b) => a.col_offset - b.col_offset)].  [undefined]
    elements go last without being compared.  The comparator throws on
    [null], and with two elements or more each element is compared at
    least once.  The order is that of a stable sort: the insertion sort
    the runtime uses on short arrays, where each element moves left past
    the elements that compare greater. *)

Definition col_offset (v : value) : option Z := to_number (get v "col_offset").

(** [comparefn(a, b) > 0]; a [NaN] difference counts as zero. *)
Definition comes_after (a b : value) : bool :=
  match col_offset a, col_offset b with
  | Some x, Some y => Z.ltb 0 (x - y)
  | _, _ => false
  end.

(** [sorted_rev] is the sorted prefix, last element first. *)
Fixpoint insert_from_right (x : value) (sorted_rev : list value) : list value :=
  match sorted_rev with
  | [] => [x]
  | t :: rest =>
      if comes_after t x then t :: insert_from_right x rest
      else x :: sorted_rev
  end.

Definition insertion_sort (l : list value) : list value :=
  rev (fold_left (fun acc x => insert_from_right x acc) l []).

Definition is_undefined (v : value) : bool :=
  match v with VUndef => true | _ => false end.

Definition is_null (v : value) : bool :=
  match v with VNull => true | _ => false end.

Definition sort_by_col_offset (l : list value) : result (list value) :=
  let defined := filter (fun v => negb (is_undefined v)) l in
  let undefineds := filter is_undefined l in
  if (2 <=? List.length defined)%nat && existsb is_null defined
  then Throw TypeError
  else Ok (insertion_sort defined ++ undefineds).

(** ** Documents

    Modelled from the spec: the document builders of [./doc-builders],
    which is not part of the file.  A document is composed from literal
    text, concatenation, grouping, indentation and the three line breaks.
    What [genericPrint] returns is a JavaScript value: a string is a
    document, and a value that is none ([undefined] from a field that is
    not there) is a leaf here until a builder meets it.  [concat],
    [indent] and [group] check what they are given, and throw on a part
    that is neither a string nor an object with a [type] that is a
    string; [join] builds its result with [concat]. *)

Inductive doc : Type :=
| DVal (v : value)
| DConcat (parts : list doc)
| DGroup (contents : doc)
| DIndent (contents : doc)
| DLine
| DSoftline
| DHardline.

Definition text (s : string) : doc := DVal (VStr s).

Definition line : doc := DLine.
Definition softline : doc := DSoftline.
Definition hardline : doc := DHardline.

(** [typeof val === "string" || (val != null && typeof val.type === "string")]. *)
Definition is_document (d : doc) : bool :=
  match d with
  | DVal (VStr _) => true
  | DVal v =>
      match get v "type" with
      | VStr _ => true
      | _ => false
      end
  | _ => true
  end.

Definition assertDoc (d : doc) : result unit :=
  if is_document d then Ok tt
  else Throw (InvalidDocument match d with DVal v => v | _ => VUndef end).

Definition concat (parts : list doc) : result doc :=
  _ <- mapM assertDoc parts ;;
  Ok (DConcat parts).

Definition group (contents : doc) : result doc :=
  _ <- assertDoc contents ;;
  Ok (DGroup contents).

Definition indent (contents : doc) : result doc :=
  _ <- assertDoc contents ;;
  Ok (DIndent contents).

Fixpoint intersperse (sep : doc) (l : list doc) : list doc :=
  match l with
  | [] => []
  | [x] => [x]
  | x :: rest => x :: sep :: intersperse sep rest
  end.

(** [join(sep, arr)]: the elements with [sep] between each two, handed
    to [concat]. *)
Definition join (sep : doc) (l : list doc) : result doc :=
  concat (intersperse sep l).

(** The document a [join] returns when it returns. *)
Definition joined (sep : doc) (l : list doc) : doc :=
  DConcat (intersperse sep l).

Definition newline : string := String (ascii_of_nat 10) EmptyString.

(** Modelled from the spec: the text of a document when no group breaks.
    A breakable space is a space, a breakable-with-no-space is nothing, a
    mandatory break is a newline.  A leaf that is not a string has no
    text. *)
Fixpoint flat (d : doc) : option string :=
  match d with
  | DVal (VStr s) => Some s
  | DVal _ => None
  | DConcat parts =>
      (fix all (l : list doc) : option string :=
         match l with
         | [] => Some ""
         | x :: rest =>
             match flat x, all rest with
             | Some a, Some b => Some (a ++ b)%string
             | _, _ => None
             end
         end) parts
  | DGroup c => flat c
  | DIndent c => flat c
  | DLine => Some " "
  | DSoftline => Some ""
  | DHardline => Some newline
  end.

(** ** The path cursor

    Modelled from the spec: the path ([FastPath]) is not part of the file.
    It is a stack of the values from the root to the current one, the
    current value on top; between a node and an element of one of its
    sequences lies the sequence itself. *)

Definition path : Type := list value.

Definition getValue (p : path) : value := hd VUndef p.

(** The [count]-th value from the top that is an actual node: truthy and
    not an array. *)
Fixpoint getNodeHelper (s : path) (count : nat) : value :=
  match s with
  | [] => VNull
  | v :: rest =>
      if truthy v && negb (isArray v) then
        match count with
        | O => v
        | S c => getNodeHelper rest c
        end
      else getNodeHelper rest count
  end.

Definition getParentNode (p : path) : value := getNodeHelper p 1.

Definition printer : Type := path -> result doc.

(** [path.call(print, key)]. *)
Definition path_call (print : printer) (p : path) (key : string) : result doc :=
  child <- get_prop (getValue p) key ;;
  print (child :: p).

(** [path.call(print, key, i)]. *)
Definition path_call_at (print : printer) (p : path) (key : string) (i : nat)
  : result doc :=
  seq <- get_prop (getValue p) key ;;
  child <- get_index seq i ;;
  print (child :: seq :: p).

(** [path.map(print, key)]: the sequence is read through its [length].
    Of an array every element is printed, in order.  A field that is not
    there has no [length] to read.  A string holds no elements to print.
    A value with no [length] gives the one-element array [new Array]
    makes of [undefined]; an object with a field [length] is not a
    sequence of the AST and is refused here. *)
Definition path_map (print : printer) (p : path) (key : string)
  : result (list doc) :=
  seq <- get_prop (getValue p) key ;;
  match seq with
  | VArr l => mapM (fun child => print (child :: seq :: p)) l
  | VUndef | VNull => Throw TypeError
  | VStr s => if String.eqb s "" then Ok [] else Throw TypeError
  | VObj fs =>
      if is_undefined (assoc "length" fs) then Ok [DVal VUndef]
      else Throw TypeError
  | VBool _ | VNum _ => Ok [DVal VUndef]
  end.

(** ** The argument merger: [printArguments]

    The loop over [merge] is a recursion on what is left of it: [rest]
    starts at [merge[i]], and [next] is [merge[i + 1]], [undefined] past
    the end.  Taking a default skips one more element.  Each part is
    built, and so checked, before the next turn of the loop. *)

Section Printer.

Variable print : printer.
Variable p : path.

Fixpoint printArguments_loop (argsKey defaultsKey : string)
    (rest : list value) (currentArgument currentDefault : nat)
  : result (list doc) :=
  match rest with
  | [] => Ok []
  | _ :: after =>
      arg <- path_call_at print p argsKey currentArgument ;;
      match after with
      | next :: after' =>
          if truthy next && negb (loose_eq_arg (get next "ast_type")) then
            default <- path_call_at print p defaultsKey currentDefault ;;
            part <- concat [arg; text "="; default] ;;
            parts <- printArguments_loop argsKey defaultsKey after'
                       (S currentArgument) (S currentDefault) ;;
            Ok (part :: parts)
          else
            part <- concat [arg] ;;
            parts <- printArguments_loop argsKey defaultsKey after
                       (S currentArgument) currentDefault ;;
            Ok (part :: parts)
      | [] =>
          part <- concat [arg] ;;
          Ok [part]
      end
  end.

Definition printArguments (argsKey defaultsKey : string) : result (list doc) :=
  let n := getValue p in
  args <- (a <- get_prop n argsKey ;; spread a) ;;
  defaults <- (d <- get_prop n defaultsKey ;; spread d) ;;
  merge <- sort_by_col_offset (args ++ defaults) ;;
  printArguments_loop argsKey defaultsKey merge 0 0.

End Printer.

(** ** The dispatch: [genericPrint]

    The [switch] compares [n.ast_type] with the case labels by strict
    equality, so only a string selects a case.  [kind] names the cases and
    [dispatch_table] lists their labels. *)

Inductive kind : Type :=
| KModule | KFunctionDef | Karguments | Karg | KExpr | KCall | KStr | KNum
| Kfloat | Kint | KName | KNameConstant | KFor | KTuple | KList | KAssign
| KAugAssign | KDict | KClassDef | KAttribute
| KAdd | KSub | KMult | KMatMult | KDiv | KFloorDiv | KMod | KPow
| KLShift | KRShift | KBitAnd | KBitXor | KBitOr
| KCompare | KLt | KLtE | KGt | KGtE | KEq | KNotEq.

Definition dispatch_table : list (string * kind) :=
  [ ("Module", KModule); ("FunctionDef", KFunctionDef);
    ("arguments", Karguments); ("arg", Karg); ("Expr", KExpr);
    ("Call", KCall); ("Str", KStr); ("Num", KNum); ("float", Kfloat);
    ("int", Kint); ("Name", KName); ("NameConstant", KNameConstant);
    ("For", KFor); ("Tuple", KTuple); ("List", KList); ("Assign", KAssign);
    ("AugAssign", KAugAssign); ("Dict", KDict); ("ClassDef", KClassDef);
    ("Attribute", KAttribute);
    ("Add", KAdd); ("Sub", KSub); ("Mult", KMult); ("MatMult", KMatMult);
    ("Div", KDiv); ("FloorDiv", KFloorDiv); ("Mod", KMod); ("Pow", KPow);
    ("LShift", KLShift); ("RShift", KRShift); ("BitAnd", KBitAnd);
    ("BitXor", KBitXor); ("BitOr", KBitOr);
    ("Compare", KCompare); ("Lt", KLt); ("LtE", KLtE); ("Gt", KGt);
    ("GtE", KGtE); ("Eq", KEq); ("NotEq", KNotEq) ].

Fixpoint lookup_kind (tag : string) (table : list (string * kind)) : option kind :=
  match table with
  | [] => None
  | (label, k) :: rest =>
      if String.eqb tag label then Some k else lookup_kind tag rest
  end.

Definition kind_of (ast_type : value) : option kind :=
  match ast_type with
  | VStr tag => lookup_kind tag dispatch_table
  | _ => None
  end.

Definition quote : string := String "034"%char EmptyString.

(** [["List", "Tuple"].indexOf(t) !== -1]. *)
Definition is_List_or_Tuple (t : value) : bool :=
  match t with
  | VStr s => String.eqb s "List" || String.eqb s "Tuple"
  | _ => false
  end.

(** [keys.map((k, i) => f(k, values[i]))]; past the end of [values] the
    read gives [undefined]. *)
Fixpoint map_with (f : doc -> doc -> result doc) (ks vs : list doc)
  : result (list doc) :=
  match ks with
  | [] => Ok []
  | k :: ks' =>
      x <- f k (hd (DVal VUndef) vs) ;;
      xs <- map_with f ks' (tl vs) ;;
      Ok (x :: xs)
  end.

(** The [options] argument is never read and is left out.  The steps of
    a case stand in the order the runtime takes them: the elements of an
    array literal from left to right, the arguments of a call before the
    call. *)
Definition genericPrint (p : path) (print : printer) : result doc :=
  let n := getValue p in
  if negb (truthy n) then Ok (text EmptyString)
  else
    match n with
    | VStr _ => Ok (DVal n)
    | _ =>
        match kind_of (get n "ast_type") with
        | Some KModule =>
            sep <- concat [hardline; hardline] ;;
            body <- path_map print p "body" ;;
            statements <- join sep body ;;
            concat [statements; hardline]
        | Some KFunctionDef =>
            name <- path_call print p "name" ;;
            args <- path_call print p "args" ;;
            inner <- concat [softline; args] ;;
            indented <- indent inner ;;
            parens <- concat [text "("; indented; softline; text ")"] ;;
            parameters <- group parens ;;
            body <- path_map print p "body" ;;
            statements <- concat body ;;
            block <- concat [line; statements] ;;
            suite <- indent block ;;
            concat [text "def "; name; parameters; text ":"; suite]
        | Some Karguments =>
            parts <- printArguments print p "args" "defaults" ;;
            parts <- (if truthy (get n "vararg") then
                        vararg <- path_call print p "vararg" ;;
                        part <- concat [text "*"; vararg] ;;
                        Ok (parts ++ [part])
                      else Ok parts) ;;
            len <- get_prop (get n "kwonlyargs") "length" ;;
            parts <- (if gt_zero len then
                        kwonly <- printArguments print p "kwonlyargs" "kw_defaults" ;;
                        Ok ((parts ++ [text "*"]) ++ kwonly)
                      else Ok parts) ;;
            parts <- (if truthy (get n "kwarg") then
                        kwarg <- path_call print p "kwarg" ;;
                        part <- concat [text "**"; kwarg] ;;
                        Ok (parts ++ [part])
                      else Ok parts) ;;
            sep <- concat [text ", "; softline] ;;
            join sep parts
        | Some Karg => Ok (DVal (get n "arg"))
        | Some KExpr => path_call print p "value"
        | Some KCall =>
            callee <- get_prop (get n "func") "id" ;;
            args <- path_map print p "args" ;;
            arguments <- join (text ", ") args ;;
            concat [DVal callee; text "("; arguments; text ")"]
        | Some KStr =>
            Ok (text (quote ++ to_string (get n "s") ++ quote)%string)
        | Some KNum => path_call print p "n"
        | Some Kfloat | Some Kint => Ok (text (to_string (get n "n")))
        | Some KName => Ok (DVal (get n "id"))
        | Some KNameConstant => Ok (text (to_string (get n "value")))
        | Some KFor =>
            target <- path_call print p "target" ;;
            iter <- path_call print p "iter" ;;
            body <- path_map print p "body" ;;
            statements <- concat body ;;
            block <- concat [line; statements] ;;
            suite <- indent block ;;
            let parts := [ text "for "; target; text " in "; iter; text ":";
                           suite ] in
            len <- get_prop (get n "orelse") "length" ;;
            if gt_zero len then
              orelse <- path_map print p "orelse" ;;
              statements' <- concat orelse ;;
              block' <- concat [line; statements'] ;;
              suite' <- indent block' ;;
              concat (parts ++ [line; text "else:"; suite'])
            else concat parts
        | Some KTuple =>
            parent_type <- get_prop (getParentNode p) "ast_type" ;;
            let needsParens := is_List_or_Tuple parent_type in
            printed <- path_map print p "elts" ;;
            elts <- join (text ", ") printed ;;
            if needsParens then concat [text "("; elts; text ")"]
            else Ok elts
        | Some KList =>
            printed <- path_map print p "elts" ;;
            elts <- join (text ", ") printed ;;
            concat [text "["; elts; text "]"]
        | Some KAssign =>
            printed <- path_map print p "targets" ;;
            targets <- join (text ", ") printed ;;
            v <- path_call print p "value" ;;
            concat [targets; text " = "; v]
        | Some KAugAssign =>
            target <- path_call print p "target" ;;
            op <- path_call print p "op" ;;
            v <- path_call print p "value" ;;
            concat [target; text " "; op; text "= "; v]
        | Some KDict =>
            keys <- path_map print p "keys" ;;
            values <- path_map print p "values" ;;
            pairs <- map_with (fun k v => concat [softline; k; text ": "; v])
                              keys values ;;
            entries <- join (text ",") pairs ;;
            indented <- indent entries ;;
            concat [text "{"; indented; softline; text "}"]
        | Some KClassDef =>
            len <- get_prop (get n "bases") "length" ;;
            bases <- (if gt_zero len then
                        printed <- path_map print p "bases" ;;
                        joined_bases <- join (text ",") printed ;;
                        Ok [text "("; joined_bases; text ")"]
                      else Ok []) ;;
            heritage <- concat bases ;;
            body <- path_map print p "body" ;;
            statements <- concat body ;;
            block <- concat [line; statements] ;;
            suite <- indent block ;;
            concat [text "class "; DVal (get n "name"); heritage; text ":"; suite]
        | Some KAttribute =>
            v <- path_call print p "value" ;;
            concat [v; text "."; DVal (get n "attr")]
        | Some KAdd => Ok (text "+")
        | Some KSub => Ok (text "-")
        | Some KMult => Ok (text "*")
        | Some KMatMult => Ok (text "@")
        | Some KDiv => Ok (text "/")
        | Some KFloorDiv => Ok (text "//")
        | Some KMod => Ok (text "%")
        | Some KPow => Ok (text "**")
        | Some KLShift => Ok (text "<<")
        | Some KRShift => Ok (text ">>")
        | Some KBitAnd => Ok (text "&")
        | Some KBitXor => Ok (text "^")
        | Some KBitOr => Ok (text "|")
        | Some KCompare =>
            ops <- path_map print p "ops" ;;
            comparators <- path_map print p "comparators" ;;
            pairs <- map_with (fun op c => concat [text " "; op; text " "; c])
                              ops comparators ;;
            left <- path_call print p "left" ;;
            concat (left :: pairs)
        | Some KLt => Ok (text "<")
        | Some KLtE => Ok (text "<=")
        | Some KGt => Ok (text ">")
        | Some KGtE => Ok (text ">=")
        | Some KEq => Ok (text "==")
        | Some KNotEq => Ok (text "!=")
        | None => Throw (UnknownPythonType (get n "ast_type"))
        end
    end.

(** Modelled from the spec: the traversal driver, which is not part of the
    file.  It hands every node to [genericPrint] with itself as the
    [print] callback; [depth] is the number of nested calls the runtime
    stack still has room for. *)
Fixpoint printGenerically (depth : nat) (p : path) : result doc :=
  match depth with
  | O => Throw StackOverflow
  | S d => genericPrint p (printGenerically d)
  end.

(** The entry point: the path of the root alone. *)
Definition printAstToDoc (depth : nat) (ast : value) : result doc :=
  printGenerically depth [ast].

(** ** Sample trees

    Nodes as the parser exports them: every node carries its tag and its
    position; a number literal wraps an [int] node. *)

Module Sample.

Definition node (tag : string) (lineno col : Z) (fields : list (string * value))
  : value :=
  VObj (("ast_type", VStr tag) :: fields
        ++ [("lineno", VNum lineno); ("col_offset", VNum col)]).

Definition Name (id : string) (lineno col : Z) : value :=
  node "Name" lineno col [("id", VStr id)].

Definition Num (z : Z) (lineno col : Z) : value :=
  node "Num" lineno col
       [("n", VObj [("ast_type", VStr "int"); ("n", VNum z);
                    ("n_str", VStr (string_of_Z z))])].

Definition arg (name : string) (lineno col : Z) : value :=
  node "arg" lineno col [("arg", VStr name); ("annotation", VNull)].

Definition operator (tag : string) : value := VObj [("ast_type", VStr tag)].

Definition arguments (args defaults : list value) (vararg : value)
    (kwonlyargs kw_defaults : list value) (kwarg : value) : value :=
  VObj [ ("ast_type", VStr "arguments");
         ("args", VArr args); ("vararg", vararg);
         ("kwonlyargs", VArr kwonlyargs); ("kw_defaults", VArr kw_defaults);
         ("kwarg", kwarg); ("defaults", VArr defaults) ].

(** The text a document prints as on one line, when it has one. *)
Definition flat_of (r : result doc) : option string :=
  match r with
  | Ok d => flat d
  | Throw _ => None
  end.

(** [def f(a, b,] / [   c=1): ...]: the parameter list of a definition
    whose last parameter stands on a second line, left of the first. *)
Definition wrapped_parameters : value :=
  arguments [arg "a" 1 6; arg "b" 1 9; arg "c" 2 3] [Num 1 2 5]
            VNull [] [] VNull.

(** [def f(a, b, c=1): ...] on one line. *)
Definition one_line_parameters : value :=
  arguments [arg "a" 1 6; arg "b" 1 9; arg "c" 1 12] [Num 1 1 14]
            VNull [] [] VNull.

(** [def f(a, *args, b=1, **kw): ...]. *)
Definition all_groups : value :=
  arguments [arg "a" 1 6] [] (arg "args" 1 10)
            [arg "b" 1 16] [Num 1 1 18] (arg "kw" 1 23).

(** The parameters of [def f] with a bare star and then [a]: a
    keyword-only parameter that has no default; the parser puts [None]
    where its default would be. *)
Definition required_keyword_only : value :=
  arguments [] [] VNull [arg "a" 1 9] [VNull] VNull.

Definition Module (body : list value) : value :=
  VObj [("ast_type", VStr "Module"); ("body", VArr body)].

(** [x += 1]. *)
Definition x_plus_1 : value :=
  node "AugAssign" 1 0
       [("target", Name "x" 1 0); ("op", operator "Add"); ("value", Num 1 1 5)].

(** [(1, 2)], [[(1, 2)]] and [t = 1, 2]. *)
Definition pair_1_2 (col : Z) : value :=
  node "Tuple" 1 col [("elts", VArr [Num 1 1 (col + 1); Num 2 1 (col + 4)])].

Definition list_of_pair : value :=
  node "List" 1 0 [("elts", VArr [pair_1_2 1])].

Definition assign_pair : value :=
  node "Assign" 1 0
       [("targets", VArr [Name "t" 1 0]);
        ("value", node "Tuple" 1 4 [("elts", VArr [Num 1 1 4; Num 2 1 7])])].

(** [a < b <= c]. *)
Definition chained : value :=
  node "Compare" 1 0
       [("left", Name "a" 1 0);
        ("ops", VArr [operator "Lt"; operator "LtE"]);
        ("comparators", VArr [Name "b" 1 4; Name "c" 1 9])].

(** [{a: 1, b: 2}]. *)
Definition dict_a_b : value :=
  node "Dict" 1 0
       [("keys", VArr [Name "a" 1 1; Name "b" 1 7]);
        ("values", VArr [Num 1 1 4; Num 2 1 10])].

(** [obj.method(1)]: a call whose callee is an attribute access. *)
Definition method_call : value :=
  node "Call" 1 0
       [("func", node "Attribute" 1 0
                      [("value", Name "obj" 1 0); ("attr", VStr "method")]);
        ("args", VArr [Num 1 1 11]); ("keywords", VArr [])].

(** [f(1)]: a call whose callee is a bare name. *)
Definition name_call : value :=
  node "Call" 1 0
       [("func", Name "f" 1 0); ("args", VArr [Num 1 1 2]);
        ("keywords", VArr [])].

(** A node of a kind the printer has no case for: [lambda: 0]. *)
Definition lambda : value :=
  node "Lambda" 1 4 [("args", arguments [] [] VNull [] [] VNull);
                     ("body", Num 0 1 12)].

(** [x = lambda: 0], under a module: a statement with a node below it
    that the printer has no case for. *)
Definition module_with_lambda : value :=
  Module [node "Assign" 1 0 [("targets", VArr [Name "x" 1 0]); ("value", lambda)]].

(** An expression statement. *)
Definition Expr (lineno col : Z) (v : value) : value :=
  node "Expr" lineno col [("value", v)].

(** [for x in xs:] with the body [y], and then [else:] with [z]. *)
Definition for_else : value :=
  node "For" 1 0
       [("target", Name "x" 1 4); ("iter", Name "xs" 1 9);
        ("body", VArr [Expr 2 4 (Name "y" 2 4)]);
        ("orelse", VArr [Expr 4 4 (Name "z" 4 4)])].

(** [class A(B, C):] with the body [x]. *)
Definition class_with_bases : value :=
  node "ClassDef" 1 0
       [("name", VStr "A"); ("bases", VArr [Name "B" 1 8; Name "C" 1 11]);
        ("keywords", VArr []); ("body", VArr [Expr 2 4 (Name "x" 2 4)]);
        ("decorator_list", VArr [])].

(** [x = (1,)]: the tuple has one element. *)
Definition assign_single : value :=
  node "Assign" 1 0
       [("targets", VArr [Name "x" 1 0]);
        ("value", node "Tuple" 1 4 [("elts", VArr [Num 1 1 5])])].

(** [a = b = 1]: one assignment with two targets. *)
Definition chained_assign : value :=
  node "Assign" 1 0
       [("targets", VArr [Name "a" 1 0; Name "b" 1 4]); ("value", Num 1 1 8)].

(** A module of two statements, [x] and [y]. *)
Definition two_statements : value :=
  Module [Expr 1 0 (Name "x" 1 0); Expr 2 0 (Name "y" 2 0)].

(** [def f(a, b, c=1):] with the body [x]. *)
Definition function_def : value :=
  node "FunctionDef" 1 0
       [("name", VStr "f"); ("args", one_line_parameters);
        ("body", VArr [Expr 2 4 (Name "x" 2 4)]);
        ("decorator_list", VArr []); ("returns", VNull)].

End Sample.

(** ** Notions the statements use *)

(** Every element of a list is a document. *)
Definition documents (l : list doc) : Prop :=
  Forall (fun d => is_document d = true) l.

(** The error of a builder: the part it names is no document. *)
Definition builder_error (e : error) : Prop :=
  exists v, e = InvalidDocument v /\ is_document (DVal v) = false.

(** A node of one of the kinds the dispatch has a case for. *)
Definition has_kind (n : value) (k : kind) : Prop :=
  kind_of (get n "ast_type") = Some k.

(** The tag of a node is a label of the dispatch. *)
Definition in_dispatch (n : value) : Prop :=
  exists k, has_kind n k.

(** An actual node for the dispatch: not one of the two values it answers
    before looking at the tag. *)
Definition dispatched (n : value) : bool :=
  truthy n && match n with VStr _ => false | _ => true end.

(** How deep the values nest below [v]. *)
Fixpoint height (v : value) : nat :=
  match v with
  | VArr l => S (fold_right (fun x h => Nat.max (height x) h) O l)
  | VObj fs => S (fold_right (fun kv h => Nat.max (height (snd kv)) h) O fs)
  | _ => O
  end.

(** The columns of a sequence of nodes increase from each to the next. *)
Fixpoint columns_increase (l : list value) : Prop :=
  match l with
  | [] => True
  | x :: rest =>
      match rest with
      | [] => exists c, col_offset x = Some c
      | y :: _ =>
          (exists c d, col_offset x = Some c /\ col_offset y = Some d /\ (c < d)%Z)
          /\ columns_increase rest
      end
  end.

(** A parameter and, when it has one, the default written after it. *)
Definition item : Type := (value * option value)%type.

(** The nodes of a parameter list in the order of the source text. *)
Fixpoint in_source_order (items : list item) : list value :=
  match items with
  | [] => []
  | (a, Some d) :: rest => a :: d :: in_source_order rest
  | (a, None) :: rest => a :: in_source_order rest
  end.

Definition parameters_of (items : list item) : list value := map fst items.

Fixpoint defaults_of (items : list item) : list value :=
  match items with
  | [] => []
  | (_, Some d) :: rest => d :: defaults_of rest
  | (_, None) :: rest => defaults_of rest
  end.

(** A parameter carries the tag [arg]; a default is a node of another
    tag. *)
Definition is_arg (v : value) : Prop := get v "ast_type" = VStr "arg".

Definition is_default (v : value) : Prop :=
  truthy v = true /\ loose_eq_arg (get v "ast_type") = false.

Definition well_tagged (it : item) : Prop :=
  is_arg (fst it) /\ forall d, snd it = Some d -> is_default d.

(** What the merger is meant to return: one fragment for each parameter,
    in order, the parameter alone or followed by [=] and its own
    default.  [pa] and [pd] give the printed parameter and default. *)
Fixpoint paired_fragments (pa pd : value -> doc) (items : list item) : list doc :=
  match items with
  | [] => []
  | (a, Some d) :: rest =>
      DConcat [pa a; text "="; pd d] :: paired_fragments pa pd rest
  | (a, None) :: rest => DConcat [pa a] :: paired_fragments pa pd rest
  end.

(** The column of a node that has one. *)
Definition column (v : value) : Z :=
  match col_offset v with
  | Some c => c
  | None => 0%Z
  end.

Definition has_column (v : value) : Prop := exists c, col_offset v = Some c.

(** Lists of nodes ordered by column. *)
Definition descending : list value -> Prop :=
  StronglySorted (fun a b => (column b <= column a)%Z).

Definition ascending : list value -> Prop :=
  StronglySorted (fun a b => (column a <= column b)%Z).

Definition strictly_ascending : list value -> Prop :=
  StronglySorted (fun a b => (column a < column b)%Z).

(** [v] stands in the tree [t]: it is [t], or it stands in an element or
    in a field of [t]. *)
Inductive occurs_in (v : value) : value -> Prop :=
| occurs_here : occurs_in v v
| occurs_element (x : value) (l : list value) :
    In x l -> occurs_in v x -> occurs_in v (VArr l)
| occurs_field (k : string) (x : value) (fs : list (string * value)) :
    In (k, x) fs -> occurs_in v x -> occurs_in v (VObj fs).

(** A path that extends [p] by what is read from its node: by the value
    of a property [k] of the node, or by that value and what it holds at
    an index [i].  The reads are those of JavaScript: a property or an
    index that is not there reads as [undefined]. *)
Definition child_path (p q : path) : Prop :=
  (exists k, q = get (getValue p) k :: p)
  \/ (exists k i c,
        get_index (get (getValue p) k) i = Ok c
        /\ q = c :: get (getValue p) k :: p).

(** The error [e] of a print at [p] is a [TypeError] of the runtime, the
    error of a builder, or the callback threw it on a path that extends
    [p] by what is read from its node; the value there is less high than
    the node and, when it is one the dispatch takes, stands in the tree
    of the node. *)
Definition thrown_under (print : printer) (p : path) (e : error) : Prop :=
  e = TypeError
  \/ builder_error e
  \/ exists q, child_path p q
               /\ print q = Throw e
               /\ height (getValue q) < height (getValue p)
               /\ (dispatched (getValue q) = true ->
                   occurs_in (getValue q) (getValue p)).

(** Two paths show the printer the same node under the same parent. *)
Definition same_node (p1 p2 : path) : Prop :=
  getValue p1 = getValue p2 /\ getParentNode p1 = getParentNode p2.

(** The same, with the parent left open where the current value is not an
    object: only an object is asked for its parent. *)
Definition agree (p1 p2 : path) : Prop :=
  getValue p1 = getValue p2
  /\ (forall fs, getValue p1 = VObj fs -> getParentNode p1 = getParentNode p2).

(** [r'] is [r], unless [r] ran out of stack. *)
Definition refines {A : Type} (r r' : result A) : Prop :=
  r = Throw StackOverflow \/ r = r'.

(** The kinds whose case returns at once, without a call of the callback
    and without a read that can fail. *)
Definition is_leaf (k : kind) : bool :=
  match k with
  | Karg | KStr | Kfloat | Kint | KName | KNameConstant
  | KAdd | KSub | KMult | KMatMult | KDiv | KFloorDiv | KMod | KPow
  | KLShift | KRShift | KBitAnd | KBitXor | KBitOr
  | KLt | KLtE | KGt | KGtE | KEq | KNotEq => true
  | _ => false
  end.

(** The kinds of the operators, arithmetic and relational. *)
Definition is_operator (k : kind) : bool :=
  match k with
  | KAdd | KSub | KMult | KMatMult | KDiv | KFloorDiv | KMod | KPow
  | KLShift | KRShift | KBitAnd | KBitXor | KBitOr
  | KLt | KLtE | KGt | KGtE | KEq | KNotEq => true
  | _ => false
  end.

(** The fragments of the merger take the parameters one by one from
    cursor [i] and the defaults one by one from cursor [j]: each fragment
    is the print of the next parameter, alone or followed by [=] and the
    print of the next default. *)
Inductive in_cursor_order (print : printer) (p : path)
    (argsKey defaultsKey : string) : nat -> nat -> list doc -> Prop :=
| cursor_done (i j : nat) :
    in_cursor_order print p argsKey defaultsKey i j []
| cursor_alone (i j : nat) (a : doc) (parts : list doc) :
    path_call_at print p argsKey i = Ok a ->
    in_cursor_order print p argsKey defaultsKey (S i) j parts ->
    in_cursor_order print p argsKey defaultsKey i j (DConcat [a] :: parts)
| cursor_paired (i j : nat) (a d : doc) (parts : list doc) :
    path_call_at print p argsKey i = Ok a ->
    path_call_at print p defaultsKey j = Ok d ->
    in_cursor_order print p argsKey defaultsKey (S i) (S j) parts ->
    in_cursor_order print p argsKey defaultsKey i j
                    (DConcat [a; text "="; d] :: parts).

(** Reading a decimal numeral back. *)
Definition Z_of_string (s : string) : option Z :=
  option_map Z.of_int (NilZero.int_of_string s).

(** The documents of a list have the texts of a list, one for one. *)
Definition have_texts (ds : list doc) (ts : list string) : Prop :=
  Forall2 (fun d t => flat d = Some t) ds ts.

(** ** General facts *)

Lemma has_kind_object (n : value) (k : kind) :
  has_kind n k -> exists fs, n = VObj fs.
Proof.
  unfold has_kind. destruct n as [| | b | z | s | l | fs]; cbn;
    try discriminate.
  intros _. now exists fs.
Qed.

(** What the dispatch does once the two early answers are passed. *)
Lemma genericPrint_unknown (p : path) (print : printer) :
  dispatched (getValue p) = true ->
  kind_of (get (getValue p) "ast_type") = None ->
  genericPrint p print = Throw (UnknownPythonType (get (getValue p) "ast_type")).
Proof.
  unfold dispatched, genericPrint. intros Hd Hk.
  apply andb_prop in Hd. destruct Hd as [Ht Hs]. rewrite Ht. simpl.
  destruct (getValue p); try discriminate; rewrite Hk; reflexivity.
Qed.

Lemma mapM_length {A B : Type} (f : A -> result B) (l : list A) (ys : list B) :
  mapM f l = Ok ys -> List.length ys = List.length l.
Proof.
  revert ys. induction l as [| x l IH]; simpl; intros ys H.
  - injection H as <-. reflexivity.
  - destruct (f x); simpl in H; try discriminate.
    destruct (mapM f l) as [zs |]; simpl in H; try discriminate.
    injection H as <-. simpl. now rewrite (IH zs).
Qed.

Lemma mapM_throw {A B : Type} (f : A -> result B) (l : list A) (e : error) :
  mapM f l = Throw e -> exists x, In x l /\ f x = Throw e.
Proof.
  induction l as [| x l IH]; simpl; [discriminate |].
  destruct (f x) eqn:Hx; simpl.
  - destruct (mapM f l); simpl; [discriminate |].
    intros H. injection H as ->. destruct IH as [y [Hy Hf]]; [reflexivity |].
    exists y. split; [now right | exact Hf].
  - intros H. injection H as ->. exists x. split; [now left | exact Hx].
Qed.

(** *** The builders *)

Lemma assertDoc_ok (d : doc) : is_document d = true -> assertDoc d = Ok tt.
Proof. unfold assertDoc. now intros ->. Qed.

Lemma assertDoc_throw (d : doc) (e : error) :
  assertDoc d = Throw e -> builder_error e.
Proof.
  unfold assertDoc, builder_error.
  destruct (is_document d) eqn:Hd; [discriminate |].
  intros H. injection H as <-.
  destruct d; try discriminate Hd. eauto.
Qed.

Lemma mapM_assertDoc_ok (l : list doc) :
  documents l -> exists us, mapM assertDoc l = Ok us.
Proof.
  induction 1 as [| d l Hd _ [us IH]]; cbn [mapM]; [now exists [] |].
  rewrite (assertDoc_ok d Hd), IH. cbn [bind]. eauto.
Qed.

Lemma mapM_assertDoc_inv (l : list doc) (us : list unit) :
  mapM assertDoc l = Ok us -> documents l.
Proof.
  revert us. induction l as [| d l IH]; cbn [mapM]; intros us H;
    [constructor |].
  unfold assertDoc at 1 in H. destruct (is_document d) eqn:Hd;
    cbn [bind] in H; [| discriminate H].
  destruct (mapM assertDoc l) as [vs |]; cbn [bind] in H; [| discriminate H].
  constructor; [exact Hd | exact (IH vs eq_refl)].
Qed.

Lemma concat_ok (parts : list doc) :
  documents parts -> concat parts = Ok (DConcat parts).
Proof.
  intros H. unfold concat. destruct (mapM_assertDoc_ok parts H) as [us ->].
  reflexivity.
Qed.

Lemma concat_inv (parts : list doc) (d : doc) :
  concat parts = Ok d -> d = DConcat parts /\ documents parts.
Proof.
  unfold concat. destruct (mapM assertDoc parts) as [us |] eqn:H;
    cbn [bind]; [| discriminate].
  intros E. injection E as <-. split; [reflexivity |].
  exact (mapM_assertDoc_inv parts us H).
Qed.

Lemma concat_throw (parts : list doc) (e : error) :
  concat parts = Throw e -> builder_error e.
Proof.
  unfold concat. destruct (mapM assertDoc parts) as [us |] eqn:H;
    cbn [bind]; [discriminate |].
  intros E. injection E as <-.
  apply mapM_throw in H. destruct H as [d [_ Hd]].
  exact (assertDoc_throw d e0 Hd).
Qed.

Lemma indent_ok (d : doc) : is_document d = true -> indent d = Ok (DIndent d).
Proof. intros H. unfold indent. now rewrite (assertDoc_ok d H). Qed.

Lemma group_ok (d : doc) : is_document d = true -> group d = Ok (DGroup d).
Proof. intros H. unfold group. now rewrite (assertDoc_ok d H). Qed.

Lemma indent_throw (d : doc) (e : error) : indent d = Throw e -> builder_error e.
Proof.
  unfold indent. destruct (assertDoc d) eqn:H; cbn [bind]; [discriminate |].
  intros E. injection E as <-. exact (assertDoc_throw d e0 H).
Qed.

Lemma group_throw (d : doc) (e : error) : group d = Throw e -> builder_error e.
Proof.
  unfold group. destruct (assertDoc d) eqn:H; cbn [bind]; [discriminate |].
  intros E. injection E as <-. exact (assertDoc_throw d e0 H).
Qed.

Lemma documents_intersperse (sep : doc) (l : list doc) :
  is_document sep = true -> documents l -> documents (intersperse sep l).
Proof.
  intros Hsep H. induction H as [| d l Hd Hl IH]; [constructor |].
  destruct l as [| d2 l'].
  - constructor; [exact Hd | constructor].
  - change (intersperse sep (d :: d2 :: l'))
      with (d :: sep :: intersperse sep (d2 :: l')).
    constructor; [exact Hd |]. constructor; [exact Hsep | exact IH].
Qed.

Lemma join_ok (sep : doc) (l : list doc) :
  is_document sep = true -> documents l -> join sep l = Ok (joined sep l).
Proof.
  intros Hsep H. unfold join, joined.
  apply concat_ok, documents_intersperse; assumption.
Qed.

Lemma join_throw (sep : doc) (l : list doc) (e : error) :
  join sep l = Throw e -> builder_error e.
Proof. apply concat_throw. Qed.

Lemma documents_map {A : Type} (f : A -> doc) (l : list A) :
  (forall x, is_document (f x) = true) -> documents (map f l).
Proof.
  intros H. induction l as [| x l IH]; cbn [map]; constructor; auto.
Qed.

Lemma documents_In (l : list doc) (d : doc) :
  documents l -> In d l -> is_document d = true.
Proof.
  intros H. exact (proj1 (Forall_forall _ l) H d).
Qed.

(** Goals that say a part is a document. *)
Ltac docs :=
  unfold documents;
  repeat first
    [ assumption
    | reflexivity
    | apply Forall_nil
    | apply Forall_cons
    | apply Forall_app; split ].

(** Run the builders on parts that are documents. *)
Ltac build :=
  repeat (first [ rewrite concat_ok by docs
                | rewrite join_ok by docs
                | rewrite indent_ok by docs
                | rewrite group_ok by docs ];
          cbn [bind]).

Lemma map_with_combine (f : doc -> doc -> result doc) (g : doc -> doc -> doc)
    (ks vs : list doc) :
  (forall k v, In k ks -> In v vs -> f k v = Ok (g k v)) ->
  List.length ks = List.length vs ->
  map_with f ks vs = Ok (map (fun kv => g (fst kv) (snd kv)) (combine ks vs)).
Proof.
  revert vs. induction ks as [| k ks IH]; intros [| v vs] Hf; simpl;
    try discriminate; [reflexivity |].
  intros H. injection H as H.
  rewrite (Hf k v) by (now left). cbn [bind].
  rewrite IH; [reflexivity | | exact H].
  intros k' v' Hk Hv. apply Hf; now right.
Qed.

(** The labels of the dispatch are pairwise distinct, so a tag selects the
    case of its own label. *)
Lemma kind_of_List (t : value) : kind_of t = Some KList <-> t = VStr "List".
Proof.
  split; [| intros ->; reflexivity].
  destruct t as [| | b | z | s | l | fs]; simpl; try discriminate.
  unfold dispatch_table, lookup_kind.
  repeat match goal with
         | |- context [String.eqb s ?l] =>
             destruct (String.eqb_spec s l) as [-> | _]; try discriminate
         end; reflexivity.
Qed.

Lemma kind_of_Tuple (t : value) : kind_of t = Some KTuple <-> t = VStr "Tuple".
Proof.
  split; [| intros ->; reflexivity].
  destruct t as [| | b | z | s | l | fs]; simpl; try discriminate.
  unfold dispatch_table, lookup_kind.
  repeat match goal with
         | |- context [String.eqb s ?l] =>
             destruct (String.eqb_spec s l) as [-> | _]; try discriminate
         end; reflexivity.
Qed.

Lemma is_List_or_Tuple_kind (t : value) :
  is_List_or_Tuple t = true <-> kind_of t = Some KList \/ kind_of t = Some KTuple.
Proof.
  rewrite kind_of_List, kind_of_Tuple. split.
  - destruct t; simpl; try discriminate. intros H.
    apply orb_prop in H. destruct H as [H | H]; apply String.eqb_eq in H;
      subst; auto.
  - intros [-> | ->]; reflexivity.
Qed.

(** Unfold the dispatch at a node of a known kind. *)
Ltac dispatch Hval Hkind :=
  let fs := fresh "fs" in
  let E := fresh "E" in
  unfold genericPrint;
  destruct (has_kind_object _ _ Hkind) as [fs E];
  rewrite Hval, E; cbn [truthy negb];
  rewrite <- E; unfold has_kind in Hkind; rewrite Hkind.

(** ** The two early answers *)

(** C9.  Before the tag is looked at, a [null] or absent node (also the
    value of an empty path) prints as the empty string, and a node that is
    itself a string prints as that string; no error in either case,
    whatever the callback does. *)
Theorem genericPrint_null_and_string (print : printer) (rest : path) :
  genericPrint (VNull :: rest) print = Ok (text EmptyString)
  /\ genericPrint (VUndef :: rest) print = Ok (text EmptyString)
  /\ genericPrint [] print = Ok (text EmptyString)
  /\ forall s, genericPrint (VStr s :: rest) print = Ok (text s).
Proof.
  repeat split.
  intros s. unfold genericPrint. simpl.
  destruct (String.eqb_spec s EmptyString) as [-> | _]; reflexivity.
Qed.

(** ** Calls *)

(** C10, as the code has it.  A call reads the [id] field of its [func]
    child as it stands; the callee is not handed to the callback, so its
    tag plays no part, and nothing is asked of [func] but that it is
    there.  The arguments are printed and joined by [", "] first.  When
    [id] is a document, as the string of a bare name is, the output is
    [id], [(], the arguments and [)]; when it is none, as [undefined]
    for a callee that has no [id], [concat] throws on it: the error
    names that value and is not the error of the default arm. *)
Theorem Call_reads_callee_id (print : printer) (p : path)
    (n func : value) (args : list value) (printed : list doc) :
  getValue p = n ->
  has_kind n KCall ->
  get n "func" = func ->
  nullish func = false ->
  get n "args" = VArr args ->
  mapM (fun a => print (a :: VArr args :: p)) args = Ok printed ->
  documents printed ->
  (is_document (DVal (get func "id")) = true ->
   genericPrint p print
   = Ok (DConcat [DVal (get func "id"); text "(";
                  joined (text ", ") printed; text ")"]))
  /\ (is_document (DVal (get func "id")) = false ->
      genericPrint p print = Throw (InvalidDocument (get func "id"))).
Proof.
  intros Hval Hkind Hfunc Hnn Hargs Hprinted Hdocs.
  assert (Hrun : genericPrint p print
                 = concat [DVal (get func "id"); text "(";
                           joined (text ", ") printed; text ")"]).
  { dispatch Hval Hkind.
    rewrite Hfunc. unfold get_prop at 1. rewrite Hnn. cbn [bind].
    unfold path_map, get_prop. rewrite Hval.
    destruct (has_kind_object _ _ Hkind) as [fs' ->]. cbn [nullish bind].
    rewrite Hargs, Hprinted. cbn [bind]. build. reflexivity. }
  rewrite Hrun. split; intros Hid.
  - build. reflexivity.
  - unfold concat. cbn [mapM]. unfold assertDoc at 1. rewrite Hid.
    reflexivity.
Qed.

(** The hypotheses at [f(1)], whose callee is a name, and at
    [obj.method(1)], whose callee is an [Attribute] node without [id]. *)
Lemma Call_reads_callee_id_witness :
  genericPrint [Sample.name_call] (printGenerically 2)
  = Ok (DConcat [text "f"; text "("; joined (text ", ") [text "1"]; text ")"])
  /\ genericPrint [Sample.method_call] (printGenerically 2)
     = Throw (InvalidDocument VUndef).
Proof.
  split.
  - apply (Call_reads_callee_id (printGenerically 2) [Sample.name_call]
             Sample.name_call (Sample.Name "f" 1 0)
             [Sample.Num 1 1 2] [text "1"]);
      try reflexivity.
    docs.
  - apply (Call_reads_callee_id (printGenerically 2) [Sample.method_call]
             Sample.method_call
             (Sample.node "Attribute" 1 0
                [("value", Sample.Name "obj" 1 0); ("attr", VStr "method")])
             [Sample.Num 1 1 11] [text "1"]);
      try reflexivity.
    docs.
Defined.

(** C10, as it is written, fails at [obj.method(1)]: the callee has no
    [id], and at no depth of the stack is there an output. *)
Lemma method_call_has_no_output :
  ~ (exists depth d, printGenerically depth [Sample.method_call] = Ok d).
Proof.
  intros [depth [d H]].
  destruct depth as [| [| [| depth]]]; discriminate H.
Qed.

(** ** Tuples *)

(** C4.  The elements of a tuple are joined by [", "]; the result stands
    between parentheses when the parent node is a [List] or a [Tuple],
    and bare under any other parent.  The printed elements are
    documents, as the builders ask. *)
Theorem Tuple_parenthesized_iff_in_List_or_Tuple (print : printer) (p : path)
    (n parent : value) (elts : list value) (printed : list doc) :
  getValue p = n ->
  has_kind n KTuple ->
  getParentNode p = parent ->
  nullish parent = false ->
  get n "elts" = VArr elts ->
  mapM (fun e => print (e :: VArr elts :: p)) elts = Ok printed ->
  documents printed ->
  (has_kind parent KList \/ has_kind parent KTuple ->
   genericPrint p print
   = Ok (DConcat [text "("; joined (text ", ") printed; text ")"]))
  /\ (~ (has_kind parent KList \/ has_kind parent KTuple) ->
      genericPrint p print = Ok (joined (text ", ") printed)).
Proof.
  intros Hval Hkind Hparent Hnn Helts Hprinted Hdocs.
  assert (Hrun : genericPrint p print
                 = if is_List_or_Tuple (get parent "ast_type")
                   then Ok (DConcat [text "("; joined (text ", ") printed; text ")"])
                   else Ok (joined (text ", ") printed)).
  { dispatch Hval Hkind.
    rewrite Hparent. unfold get_prop at 1. rewrite Hnn. cbn [bind].
    unfold path_map, get_prop. rewrite Hval.
    destruct (has_kind_object _ _ Hkind) as [fs' ->]. cbn [nullish bind].
    rewrite Helts, Hprinted. cbn [bind]. build.
    destruct (is_List_or_Tuple (get parent "ast_type")); build; reflexivity. }
  unfold has_kind. rewrite <- is_List_or_Tuple_kind. rewrite Hrun.
  split; intros H.
  - now rewrite H.
  - destruct (is_List_or_Tuple (get parent "ast_type")); [now elim H | reflexivity].
Qed.

(** The hypotheses at the pair of [[(1, 2)]], inside its list, and at the
    pair of [t = 1, 2], under its assignment. *)
Lemma Tuple_parenthesized_iff_in_List_or_Tuple_witness :
  genericPrint [Sample.pair_1_2 1; VArr [Sample.pair_1_2 1]; Sample.list_of_pair]
               (printGenerically 2)
  = Ok (DConcat [text "("; joined (text ", ") [text "1"; text "2"]; text ")"])
  /\ genericPrint [get Sample.assign_pair "value"; Sample.assign_pair]
                  (printGenerically 2)
     = Ok (joined (text ", ") [text "1"; text "2"]).
Proof.
  split.
  - apply (Tuple_parenthesized_iff_in_List_or_Tuple (printGenerically 2)
             [Sample.pair_1_2 1; VArr [Sample.pair_1_2 1]; Sample.list_of_pair]
             (Sample.pair_1_2 1) Sample.list_of_pair
             [Sample.Num 1 1 2; Sample.Num 2 1 5] [text "1"; text "2"]);
      try reflexivity; [docs | left; reflexivity].
  - apply (Tuple_parenthesized_iff_in_List_or_Tuple (printGenerically 2)
             [get Sample.assign_pair "value"; Sample.assign_pair]
             (get Sample.assign_pair "value") Sample.assign_pair
             [Sample.Num 1 1 4; Sample.Num 2 1 7] [text "1"; text "2"]);
      try reflexivity; [docs | intros [H | H]; discriminate H].
Defined.

Example list_of_pair_flat :
  Sample.flat_of (printAstToDoc 4 Sample.list_of_pair) = Some "[(1, 2)]".
Proof. reflexivity. Qed.

Example assign_pair_flat :
  Sample.flat_of (printAstToDoc 4 Sample.assign_pair) = Some "t = 1, 2".
Proof. reflexivity. Qed.

(** ** Comparisons *)

(** The symbol of a relational operator. *)
Lemma relational_symbols (print : printer) (rest : path) :
  genericPrint (Sample.operator "Lt" :: rest) print = Ok (text "<")
  /\ genericPrint (Sample.operator "LtE" :: rest) print = Ok (text "<=")
  /\ genericPrint (Sample.operator "Gt" :: rest) print = Ok (text ">")
  /\ genericPrint (Sample.operator "GtE" :: rest) print = Ok (text ">=")
  /\ genericPrint (Sample.operator "Eq" :: rest) print = Ok (text "==")
  /\ genericPrint (Sample.operator "NotEq" :: rest) print = Ok (text "!=").
Proof. repeat split. Qed.

(** C6.  A comparison whose operators and comparators are equally many
    prints as the left operand followed, pair by pair and in order, by a
    space, the operator, a space and the comparator; nothing is added
    around the chain.  The operators print as their fixed symbols, and
    [a < b <= c] comes out as it went in.  The printed operands and
    operators are documents, as the builders ask. *)
Theorem Compare_chain (print : printer) (p : path) (n : value)
    (ops comparators : list value) (left : doc) (symbols printed : list doc) :
  getValue p = n ->
  has_kind n KCompare ->
  get n "ops" = VArr ops ->
  get n "comparators" = VArr comparators ->
  List.length ops = List.length comparators ->
  mapM (fun o => print (o :: VArr ops :: p)) ops = Ok symbols ->
  mapM (fun c => print (c :: VArr comparators :: p)) comparators = Ok printed ->
  print (get n "left" :: p) = Ok left ->
  documents symbols -> documents printed -> is_document left = true ->
  genericPrint p print
  = Ok (DConcat (left ::
                map (fun oc => DConcat [text " "; fst oc; text " "; snd oc])
                    (combine symbols printed)))
  /\ (forall q : path,
        genericPrint (Sample.operator "Lt" :: q) print = Ok (text "<")
        /\ genericPrint (Sample.operator "LtE" :: q) print = Ok (text "<=")
        /\ genericPrint (Sample.operator "Gt" :: q) print = Ok (text ">")
        /\ genericPrint (Sample.operator "GtE" :: q) print = Ok (text ">=")
        /\ genericPrint (Sample.operator "Eq" :: q) print = Ok (text "==")
        /\ genericPrint (Sample.operator "NotEq" :: q) print = Ok (text "!="))
  /\ Sample.flat_of (printAstToDoc 2 Sample.chained) = Some "a < b <= c".
Proof.
  intros Hval Hkind Hops Hcmp Hlen Hsym Hprinted Hleft Hds Hdp Hdl.
  split; [| split; [intros q; apply relational_symbols | reflexivity]].
  dispatch Hval Hkind.
  unfold path_map, path_call, get_prop. rewrite Hval.
  destruct (has_kind_object _ _ Hkind) as [fs' ->]. cbn [nullish bind].
  rewrite Hops, Hsym, Hcmp, Hprinted. cbn [bind].
  rewrite (map_with_combine _
             (fun op c => DConcat [text " "; op; text " "; c])).
  - cbn [bind]. rewrite Hleft. cbn [bind]. apply concat_ok.
    constructor; [exact Hdl |]. now apply documents_map.
  - intros o c Ho Hc. apply concat_ok.
    pose proof (documents_In _ _ Hds Ho). pose proof (documents_In _ _ Hdp Hc).
    docs.
  - rewrite (mapM_length _ _ _ Hsym), (mapM_length _ _ _ Hprinted). exact Hlen.
Qed.

(** The hypotheses at [a < b <= c]. *)
Lemma Compare_chain_witness :
  genericPrint [Sample.chained] (printGenerically 1)
  = Ok (DConcat [text "a";
                DConcat [text " "; text "<"; text " "; text "b"];
                DConcat [text " "; text "<="; text " "; text "c"]]).
Proof.
  apply (Compare_chain (printGenerically 1) [Sample.chained] Sample.chained
           [Sample.operator "Lt"; Sample.operator "LtE"]
           [Sample.Name "b" 1 4; Sample.Name "c" 1 9]
           (text "a") [text "<"; text "<="] [text "b"; text "c"]);
    try reflexivity; docs.
Defined.

(** ** Dictionaries *)

(** C7.  A dictionary prints as [{], the indented pairs joined by a comma
    alone, a soft break and [}]; each pair is a soft break, the key,
    [": "] and the value.  The comma follows the value of the pair before
    it directly.  The printed keys and values are documents, as the
    builders ask. *)
Theorem Dict_pairs (print : printer) (p : path) (n : value)
    (keys values : list value) (ks vs : list doc) :
  getValue p = n ->
  has_kind n KDict ->
  get n "keys" = VArr keys ->
  get n "values" = VArr values ->
  List.length keys = List.length values ->
  mapM (fun k => print (k :: VArr keys :: p)) keys = Ok ks ->
  mapM (fun v => print (v :: VArr values :: p)) values = Ok vs ->
  documents ks -> documents vs ->
  genericPrint p print
  = Ok (DConcat [ text "{";
                 DIndent (joined (text ",")
                           (map (fun kv => DConcat [softline; fst kv; text ": "; snd kv])
                                (combine ks vs)));
                 softline;
                 text "}" ]).
Proof.
  intros Hval Hkind Hkeys Hvalues Hlen Hks Hvs Hdk Hdv.
  dispatch Hval Hkind.
  unfold path_map, get_prop. rewrite Hval.
  destruct (has_kind_object _ _ Hkind) as [fs' ->]. cbn [nullish bind].
  rewrite Hkeys, Hks, Hvalues, Hvs. cbn [bind].
  rewrite (map_with_combine _
             (fun k v => DConcat [softline; k; text ": "; v])).
  - cbn [bind]. rewrite join_ok; [| reflexivity | now apply documents_map].
    cbn [bind]. build. reflexivity.
  - intros k v Hk Hv. apply concat_ok.
    pose proof (documents_In _ _ Hdk Hk). pose proof (documents_In _ _ Hdv Hv).
    docs.
  - rewrite (mapM_length _ _ _ Hks), (mapM_length _ _ _ Hvs). exact Hlen.
Qed.

(** The hypotheses at [{a: 1, b: 2}]. *)
Lemma Dict_pairs_witness :
  genericPrint [Sample.dict_a_b] (printGenerically 2)
  = Ok (DConcat [ text "{";
                 DIndent (joined (text ",")
                           [ DConcat [softline; text "a"; text ": "; text "1"];
                             DConcat [softline; text "b"; text ": "; text "2"] ]);
                 softline;
                 text "}" ]).
Proof.
  apply (Dict_pairs (printGenerically 2) [Sample.dict_a_b] Sample.dict_a_b
           [Sample.Name "a" 1 1; Sample.Name "b" 1 7]
           [Sample.Num 1 1 4; Sample.Num 2 1 10]
           [text "a"; text "b"] [text "1"; text "2"]);
    try reflexivity; docs.
Defined.

Example dict_a_b_flat :
  Sample.flat_of (printAstToDoc 3 Sample.dict_a_b) = Some "{a: 1,b: 2}".
Proof. reflexivity. Qed.

(** ** Augmented assignments *)

Lemma printGenerically_S (depth : nat) (p : path) :
  printGenerically (S depth) p = genericPrint p (printGenerically depth).
Proof. reflexivity. Qed.

Lemma genericPrint_AugAssign (print : printer) (p : path) (n : value) :
  getValue p = n ->
  has_kind n KAugAssign ->
  genericPrint p print
  = (target <- print (get n "target" :: p) ;;
     op <- print (get n "op" :: p) ;;
     v <- print (get n "value" :: p) ;;
     concat [target; text " "; op; text "= "; v]).
Proof.
  intros Hval Hkind. dispatch Hval Hkind.
  unfold path_call, get_prop. rewrite Hval.
  destruct (has_kind_object _ _ Hkind) as [fs' ->]. reflexivity.
Qed.

Lemma printGenerically_Name (depth : nat) (q : path) (n : value) :
  has_kind n KName ->
  printGenerically (S depth) (n :: q) = Ok (DVal (get n "id")).
Proof.
  intros Hkind. assert (Hval : getValue (n :: q) = n) by reflexivity.
  rewrite printGenerically_S. dispatch Hval Hkind. reflexivity.
Qed.

Lemma printGenerically_Add (depth : nat) (q : path) (n : value) :
  has_kind n KAdd ->
  printGenerically (S depth) (n :: q) = Ok (text "+").
Proof.
  intros Hkind. assert (Hval : getValue (n :: q) = n) by reflexivity.
  rewrite printGenerically_S. dispatch Hval Hkind. reflexivity.
Qed.

Lemma printGenerically_int (depth : nat) (q : path) (n : value) :
  has_kind n Kint ->
  printGenerically (S depth) (n :: q) = Ok (text (to_string (get n "n"))).
Proof.
  intros Hkind. assert (Hval : getValue (n :: q) = n) by reflexivity.
  rewrite printGenerically_S. dispatch Hval Hkind. reflexivity.
Qed.

Lemma printGenerically_Num (depth : nat) (q : path) (n : value) :
  has_kind n KNum ->
  printGenerically (S depth) (n :: q) = printGenerically depth (get n "n" :: n :: q).
Proof.
  intros Hkind. assert (Hval : getValue (n :: q) = n) by reflexivity.
  rewrite printGenerically_S. dispatch Hval Hkind.
  unfold path_call, get_prop. cbn [getValue hd].
  destruct (has_kind_object _ _ Hkind) as [fs' ->]. reflexivity.
Qed.

Lemma printGenerically_at_x_plus_1 (depth : nat) (p : path)
    (n target op v num : value) :
  getValue p = n ->
  has_kind n KAugAssign ->
  get n "target" = target -> has_kind target KName -> get target "id" = VStr "x" ->
  get n "op" = op -> has_kind op KAdd ->
  get n "value" = v -> has_kind v KNum ->
  get v "n" = num -> has_kind num Kint -> get num "n" = VNum 1 ->
  printGenerically (3 + depth) p
  = Ok (DConcat [text "x"; text " "; text "+"; text "= "; text "1"]).
Proof.
  intros Hval Hk Ht Hkt Hid Ho Hko Hv Hkv Hn Hkn Hone.
  change (3 + depth) with (S (S (S depth))). rewrite printGenerically_S.
  rewrite (genericPrint_AugAssign _ p n Hval Hk).
  rewrite Ht, Ho, Hv.
  rewrite (printGenerically_Name _ _ _ Hkt), Hid.
  rewrite (printGenerically_Add _ _ _ Hko).
  rewrite (printGenerically_Num _ _ _ Hkv), Hn.
  rewrite (printGenerically_int _ _ _ Hkn), Hone.
  reflexivity.
Qed.

(** C3, as the code has it.  An augmented assignment with operator [Add],
    target [x] and value [1] prints as [x += 1]: the target, a space, the
    operator symbol, then ["= "] right after the symbol (so a space
    follows the [=]), then the value. *)
Theorem AugAssign_add_x_1 (depth : nat) (p : path)
    (n target op v num : value) :
  getValue p = n ->
  has_kind n KAugAssign ->
  get n "target" = target -> has_kind target KName -> get target "id" = VStr "x" ->
  get n "op" = op -> has_kind op KAdd ->
  get n "value" = v -> has_kind v KNum ->
  get v "n" = num -> has_kind num Kint -> get num "n" = VNum 1 ->
  printGenerically (3 + depth) p
  = Ok (DConcat [text "x"; text " "; text "+"; text "= "; text "1"])
  /\ Sample.flat_of (printGenerically (3 + depth) p) = Some "x += 1".
Proof.
  intros Hval Hk Ht Hkt Hid Ho Hko Hv Hkv Hn Hkn Hone.
  rewrite (printGenerically_at_x_plus_1 depth p n target op v num);
    auto.
Qed.

(** The hypotheses at the statement [x += 1]. *)
Lemma AugAssign_add_x_1_witness :
  printGenerically 3 [Sample.x_plus_1]
  = Ok (DConcat [text "x"; text " "; text "+"; text "= "; text "1"])
  /\ Sample.flat_of (printGenerically 3 [Sample.x_plus_1]) = Some "x += 1".
Proof.
  apply (AugAssign_add_x_1 0 [Sample.x_plus_1] Sample.x_plus_1
           (Sample.Name "x" 1 0) (Sample.operator "Add") (Sample.Num 1 1 5)
           (VObj [("ast_type", VStr "int"); ("n", VNum 1); ("n_str", VStr "1")]));
    try reflexivity; docs.
Defined.

(** C3, as it is written, fails at [x += 1]: at no depth of the stack is
    the text [x +=1]. *)
Lemma x_plus_1_text_is_not_x_pluseq1 :
  ~ (exists depth,
       Sample.flat_of (printGenerically depth [Sample.x_plus_1]) = Some "x +=1").
Proof.
  intros [depth H].
  destruct depth as [| [| [| d]]]; discriminate H.
Qed.

(** ** Where an error comes from

    The printer has no [try]: in the embedding every step is sequenced by
    [bind], which hands a thrown error on.  So whatever [genericPrint]
    throws is the error of its own default arm, a [TypeError] of the
    runtime, or an error the callback threw. *)

Lemma get_prop_throw (v : value) (k : string) (e : error) :
  get_prop v k = Throw e -> e = TypeError.
Proof.
  unfold get_prop. destruct (nullish v); [| discriminate].
  intros H. now injection H as <-.
Qed.

Lemma get_index_throw (v : value) (i : nat) (e : error) :
  get_index v i = Throw e -> e = TypeError.
Proof.
  destruct v; simpl; try discriminate; intros H; now injection H as <-.
Qed.

Lemma spread_throw (v : value) (e : error) :
  spread v = Throw e -> e = TypeError.
Proof.
  destruct v; simpl; try discriminate; intros H; now injection H as <-.
Qed.

Lemma sort_by_col_offset_throw (l : list value) (e : error) :
  sort_by_col_offset l = Throw e -> e = TypeError.
Proof.
  unfold sort_by_col_offset.
  destruct (_ && _); [| discriminate]. intros H. now injection H as <-.
Qed.

(** Take a failed sequence of steps apart, down to the step that threw. *)
Ltac throw_inv :=
  repeat match goal with
         | H : Ok _ = Throw _ |- _ => discriminate H
         | H : Throw ?a = Throw ?b |- _ =>
             first [ is_var a; injection H as -> | is_var b; injection H as <-
                   | injection H as H ]
         | H : bind ?c _ = Throw _ |- _ =>
             let E := fresh "E" in destruct c eqn:E; cbn [bind] in H
         | H : (if ?b then _ else _) = Throw _ |- _ => destruct b eqn:?
         end.

Lemma height_assoc (k : string) (fs : list (string * value)) :
  height (assoc k fs) < height (VObj fs).
Proof.
  cbn [height]. apply Nat.lt_succ_r.
  induction fs as [| [k' v] fs IH]; simpl; [lia |].
  destruct (String.eqb k k'); lia.
Qed.

Lemma height_element (x : value) (l : list value) :
  In x l -> height x < height (VArr l).
Proof.
  cbn [height]. intros H. apply Nat.lt_succ_r.
  induction l as [| y l IH]; simpl; [destruct H |].
  destruct H as [-> | H]; [lia | specialize (IH H); lia].
Qed.

Lemma height_nth (i : nat) (l : list value) :
  height (nth i l VUndef) < height (VArr l).
Proof.
  destruct (Nat.lt_ge_cases i (List.length l)) as [Hi | Hi].
  - apply height_element, nth_In, Hi.
  - rewrite nth_overflow by exact Hi. cbn [height]. lia.
Qed.

Lemma height_get_index (seq c : value) (i : nat) :
  get_index seq i = Ok c -> height c <= height seq.
Proof.
  destruct seq; cbn [get_index]; try discriminate; intros H; injection H as <-;
    try (cbn [height]; lia).
  - destruct (String.get i s); cbn [height]; lia.
  - pose proof (height_nth i elts). lia.
Qed.

Lemma assoc_In (k : string) (fs : list (string * value)) :
  dispatched (assoc k fs) = true -> In (k, assoc k fs) fs.
Proof.
  induction fs as [| [k' v] fs IH]; cbn [assoc]; [discriminate |].
  destruct (String.eqb_spec k k') as [-> | _]; intros H.
  - now left.
  - right. exact (IH H).
Qed.

Lemma get_index_In (seq c : value) (i : nat) :
  get_index seq i = Ok c -> dispatched c = true ->
  exists l, seq = VArr l /\ In c l.
Proof.
  destruct seq; cbn [get_index]; try discriminate;
    intros H; injection H as <-; try discriminate.
  - destruct (String.get i s); discriminate.
  - intros Hd. exists elts. split; [reflexivity |].
    destruct (Nat.lt_ge_cases i (List.length elts)) as [Hi | Hi].
    + apply nth_In, Hi.
    + rewrite nth_overflow in Hd by exact Hi. discriminate Hd.
Qed.

Lemma map_with_throw (f : doc -> doc -> result doc) (ks vs : list doc)
    (e : error) :
  (forall k v e', f k v = Throw e' -> builder_error e') ->
  map_with f ks vs = Throw e -> builder_error e.
Proof.
  intros Hf. revert vs. induction ks as [| k ks IH]; intros vs;
    cbn [map_with]; [discriminate |].
  destruct (f k (hd (DVal VUndef) vs)) eqn:Hk; cbn [bind].
  - destruct (map_with f ks (tl vs)) eqn:Hrest; cbn [bind]; [discriminate |].
    intros H. injection H as <-. exact (IH _ Hrest).
  - intros H. injection H as <-. exact (Hf _ _ _ Hk).
Qed.

(** The step that threw was a builder. *)
Ltac builder_threw :=
  match goal with
  | H : concat _ = Throw _ |- _ => exact (concat_throw _ _ H)
  | H : join _ _ = Throw _ |- _ => exact (join_throw _ _ _ H)
  | H : indent _ = Throw _ |- _ => exact (indent_throw _ _ H)
  | H : group _ = Throw _ |- _ => exact (group_throw _ _ H)
  | H : map_with _ _ _ = Throw _ |- _ =>
      eapply map_with_throw; [| exact H];
      let Hc := fresh "Hc" in
      intros ? ? ? Hc; cbv beta in Hc; exact (concat_throw _ _ Hc)
  end.

Section Origin.

Variable print : printer.

Lemma path_call_throw (p : path) (fs : list (string * value))
    (k : string) (e : error) :
  getValue p = VObj fs ->
  path_call print p k = Throw e -> thrown_under print p e.
Proof.
  unfold path_call, get_prop, thrown_under. intros Hobj H.
  assert (Hchild : child_path p (get (getValue p) k :: p))
    by (left; now exists k).
  rewrite Hobj in *.
  cbn [nullish bind get] in H. right. right. eexists.
  split; [exact Hchild |].
  split; [exact H |]. cbn [getValue hd]. split; [apply height_assoc |].
  intros Hd. eapply occurs_field; [exact (assoc_In k fs Hd) | constructor].
Qed.

Lemma path_call_at_throw (p : path) (fs : list (string * value))
    (k : string) (i : nat) (e : error) :
  getValue p = VObj fs ->
  path_call_at print p k i = Throw e -> thrown_under print p e.
Proof.
  unfold path_call_at, get_prop, thrown_under. intros Hobj H.
  assert (Hchild : forall c, get_index (get (getValue p) k) i = Ok c ->
                             child_path p (c :: get (getValue p) k :: p))
    by (intros c Hc; right; now exists k, i, c).
  rewrite Hobj in *.
  cbn [nullish bind get] in H. throw_inv.
  - right. right. eexists. split; [exact (Hchild _ E) |].
    split; [exact H |]. cbn [getValue hd]. split.
    + pose proof (height_get_index _ _ _ E). pose proof (height_assoc k fs).
      lia.
    + intros Hd. destruct (get_index_In _ _ _ E Hd) as [l [Hseq Hin]].
      eapply occurs_field.
      * apply (assoc_In k fs). rewrite Hseq. reflexivity.
      * rewrite Hseq. eapply occurs_element; [exact Hin | constructor].
  - left. eauto using get_index_throw.
Qed.

Lemma path_map_throw (p : path) (fs : list (string * value))
    (k : string) (e : error) :
  getValue p = VObj fs ->
  path_map print p k = Throw e -> thrown_under print p e.
Proof.
  unfold path_map, get_prop, thrown_under. intros Hobj H.
  assert (Hchild : forall c l, get (getValue p) k = VArr l -> In c l ->
                               child_path p (c :: VArr l :: p)).
  { intros c l Hl Hin. right.
    destruct (In_nth l c VUndef Hin) as [i [_ Hi]].
    exists k, i, c. rewrite Hl. split; [cbn [get_index]; now rewrite Hi |].
    reflexivity. }
  rewrite Hobj in *.
  cbn [nullish bind get] in H, Hchild.
  destruct (assoc k fs) eqn:Hseq; throw_inv; auto.
  apply mapM_throw in H. destruct H as [x [Hin Hx]]. right. right.
  eexists. split; [exact (Hchild _ _ eq_refl Hin) |].
  split; [exact Hx |]. cbn [getValue hd]. split.
  - pose proof (height_element _ _ Hin). pose proof (height_assoc k fs).
    rewrite Hseq in *. lia.
  - intros _. eapply occurs_field.
    + apply (assoc_In k fs). rewrite Hseq. reflexivity.
    + rewrite Hseq. eapply occurs_element; [exact Hin | constructor].
Qed.

Lemma printArguments_loop_cons (p : path) (argsKey defaultsKey : string)
    (x : value) (after : list value) (i j : nat) :
  printArguments_loop print p argsKey defaultsKey (x :: after) i j
  = (arg <- path_call_at print p argsKey i ;;
     match after with
     | next :: after' =>
         if truthy next && negb (loose_eq_arg (get next "ast_type")) then
           default <- path_call_at print p defaultsKey j ;;
           part <- concat [arg; text "="; default] ;;
           parts <- printArguments_loop print p argsKey defaultsKey after'
                      (S i) (S j) ;;
           Ok (part :: parts)
         else
           part <- concat [arg] ;;
           parts <- printArguments_loop print p argsKey defaultsKey after
                      (S i) j ;;
           Ok (part :: parts)
     | [] =>
         part <- concat [arg] ;;
         Ok [part]
     end).
Proof. reflexivity. Qed.

Lemma builder_thrown (p : path) (e : error) :
  builder_error e -> thrown_under print p e.
Proof. intros H. right. now left. Qed.

Lemma printArguments_loop_throw (p : path) (fs : list (string * value))
    (argsKey defaultsKey : string)
    (rest : list value) (i j : nat) (e : error) :
  getValue p = VObj fs ->
  printArguments_loop print p argsKey defaultsKey rest i j = Throw e ->
  thrown_under print p e.
Proof.
  intros Hobj.
  remember (List.length rest) as m eqn:Hm. revert rest i j Hm.
  induction m as [m IH] using lt_wf_ind. intros rest i j Hm H.
  destruct rest as [| x after]; [discriminate H |].
  rewrite printArguments_loop_cons in H.
  destruct after as [| next after']; throw_inv;
    eauto using path_call_at_throw;
    try (apply builder_thrown; builder_threw).
  - eapply (IH (List.length after')); [| reflexivity | eassumption].
    subst m. simpl. lia.
  - eapply (IH (List.length (next :: after'))); [| reflexivity | eassumption].
    subst m. simpl. lia.
Qed.

Lemma printArguments_throw (p : path) (fs : list (string * value))
    (argsKey defaultsKey : string) (e : error) :
  getValue p = VObj fs ->
  printArguments print p argsKey defaultsKey = Throw e -> thrown_under print p e.
Proof.
  unfold printArguments. intros Hobj H. throw_inv;
    try (left; eauto using get_prop_throw, spread_throw, sort_by_col_offset_throw; fail).
  eauto using printArguments_loop_throw.
Qed.

Lemma genericPrint_throw (p : path) (e : error) :
  genericPrint p print = Throw e ->
  (dispatched (getValue p) = true
   /\ kind_of (get (getValue p) "ast_type") = None
   /\ e = UnknownPythonType (get (getValue p) "ast_type"))
  \/ thrown_under print p e.
Proof.
  unfold genericPrint, dispatched.
  destruct (truthy (getValue p)) eqn:Ht; cbn [negb andb]; [| discriminate].
  destruct (kind_of (get (getValue p) "ast_type")) as [k |] eqn:Hk.
  - intros H. right.
    assert (Hobj : exists fs, getValue p = VObj fs)
      by (apply (has_kind_object _ k); exact Hk).
    destruct Hobj as [fs Hobj]. rewrite Hobj in H. rewrite <- Hobj in H.
    destruct k; throw_inv;
      eauto using path_call_throw, path_map_throw, printArguments_throw;
      try (apply builder_thrown; builder_threw);
      left; eauto using get_prop_throw.
  - intros H. left.
    destruct (getValue p); try discriminate; injection H as <-; auto.
Qed.

End Origin.

(** ** The unknown tag *)

(** A node whose tag is no label of the dispatch makes [genericPrint]
    throw, whatever the callback is: nothing below the node is printed. *)
Lemma unknown_tag_throws (print : printer) (p : path) :
  dispatched (getValue p) = true ->
  ~ in_dispatch (getValue p) ->
  genericPrint p print = Throw (UnknownPythonType (get (getValue p) "ast_type")).
Proof.
  intros Hd Hno. apply genericPrint_unknown; [exact Hd |].
  destruct (kind_of (get (getValue p) "ast_type")) as [k |] eqn:Hk;
    [| reflexivity].
  elim Hno. now exists k.
Qed.

(** When the driver throws the error of the default arm, some node under
    it carried the tag named in the error, and that tag is no label. *)
Lemma printGenerically_unknown_origin (depth : nat) (p : path) (t : value) :
  printGenerically depth p = Throw (UnknownPythonType t) ->
  exists q, dispatched (getValue q) = true
            /\ kind_of (get (getValue q) "ast_type") = None
            /\ t = get (getValue q) "ast_type".
Proof.
  revert p. induction depth as [| d IH]; intros p H; [discriminate H |].
  rewrite printGenerically_S in H.
  apply genericPrint_throw in H.
  destruct H as [[Hd [Hk He]] | [He | [[v [He _]] | [q [_ [Hq _]]]]]].
  - exists p. injection He as ->. auto.
  - discriminate He.
  - discriminate He.
  - exact (IH q Hq).
Qed.

(** With room on the stack for the height of the tree and one call more,
    the driver does not run out of stack: it returns, or throws an error
    that is not of the stack. *)
Lemma printGenerically_enough_depth (depth : nat) (p : path) :
  height (getValue p) < depth ->
  printGenerically depth p <> Throw StackOverflow.
Proof.
  revert p. induction depth as [| d IH]; intros p Hh H; [lia |].
  rewrite printGenerically_S in H.
  apply genericPrint_throw in H.
  destruct H as [[_ [_ He]] | [He | [[v [He _]] | [q [_ [Hq [Hlt _]]]]]]];
    try discriminate He.
  apply (IH q); [lia | exact Hq].
Qed.

(** The error of the default arm does travel up to the caller: the tag
    [Lambda], two statements deep in a module. *)
Example module_with_lambda_throws :
  printAstToDoc 5 Sample.module_with_lambda
  = Throw (UnknownPythonType (VStr "Lambda")).
Proof. reflexivity. Qed.

(** C5 fails on the code at a required keyword-only parameter.  Its
    missing default is a [null] among the defaults, the comparator of the
    sort reads [col_offset] from it, and the printer ends in a
    [TypeError], an error that is not the one of the default arm, though
    every tag of the tree is a label of the dispatch. *)
Theorem required_keyword_only_throws_TypeError (depth : nat) :
  printAstToDoc (S depth) Sample.required_keyword_only = Throw TypeError
  /\ in_dispatch Sample.required_keyword_only
  /\ in_dispatch (Sample.arg "a" 1 9).
Proof.
  split; [reflexivity |]. split; eexists; reflexivity.
Qed.

(** ** Parameter lists *)

(** C1 fails on the code when the parameter list runs over two lines.  In
    [def f(a, b,] / [   c=1):] the last parameter starts at a smaller
    column than the first, the sort by column puts [c] and its default
    first, and the walk gives the default of [c] to [a]: three fragments,
    [a=1], [b] and [c]. *)
Theorem wrapped_parameters_default_goes_to_first :
  sort_by_col_offset
    [Sample.arg "a" 1 6; Sample.arg "b" 1 9; Sample.arg "c" 2 3; Sample.Num 1 2 5]
  = Ok [Sample.arg "c" 2 3; Sample.Num 1 2 5; Sample.arg "a" 1 6; Sample.arg "b" 1 9]
  /\ printArguments (printGenerically 2) [Sample.wrapped_parameters]
                    "args" "defaults"
     = Ok [ DConcat [text "a"; text "="; text "1"];
            DConcat [text "b"];
            DConcat [text "c"] ]
  /\ Sample.flat_of (printAstToDoc 3 Sample.wrapped_parameters)
     = Some "a=1, b, c".
Proof. repeat split. Qed.

(** The same parameters on one line come out right. *)
Example one_line_parameters_flat :
  Sample.flat_of (printAstToDoc 3 Sample.one_line_parameters)
  = Some "a, b, c=1".
Proof. reflexivity. Qed.

(** C2 fails on the code when a parameter list has both [*args] and
    keyword-only parameters: the bare [*] is pushed whenever there are
    keyword-only parameters, also after [*args]. *)
Theorem all_groups_prints_bare_star_after_vararg :
  printAstToDoc 3 Sample.all_groups
  = Ok (joined (DConcat [text ", "; softline])
          [ DConcat [text "a"];
            DConcat [text "*"; text "args"];
            text "*";
            DConcat [text "b"; text "="; text "1"];
            DConcat [text "**"; text "kw"] ])
  /\ Sample.flat_of (printAstToDoc 3 Sample.all_groups)
     = Some "a, *args, *, b=1, **kw".
Proof. split; reflexivity. Qed.

(** ** What a print depends on

    One proof serves two relations between results: equality, for two
    paths that show the same node, and [refines], for two depths of the
    stack.  [R] is any relation that is reflexive and goes through
    [bind]. *)

Lemma agree_refl (p : path) : agree p p.
Proof. split; auto. Qed.

Lemma agree_child (p1 p2 : path) (fs : list (string * value)) (c : value) :
  getValue p1 = VObj fs -> getValue p2 = VObj fs ->
  agree (c :: p1) (c :: p2).
Proof.
  intros H1 H2. split; [reflexivity |].
  intros fs' Hc. cbn [getValue hd] in Hc. subst c.
  destruct p1 as [| v1 r1]; [discriminate H1 |].
  destruct p2 as [| v2 r2]; [discriminate H2 |].
  cbn [getValue hd] in H1, H2. subst v1 v2. reflexivity.
Qed.

Lemma agree_element (p1 p2 : path) (fs : list (string * value))
    (seq c : value) :
  getValue p1 = VObj fs -> getValue p2 = VObj fs ->
  agree (c :: seq :: p1) (c :: seq :: p2).
Proof.
  intros H1 H2. split; [reflexivity |].
  intros fs' Hc. cbn [getValue hd] in Hc. subst c.
  destruct p1 as [| v1 r1]; [discriminate H1 |].
  destruct p2 as [| v2 r2]; [discriminate H2 |].
  cbn [getValue hd] in H1, H2. subst v1 v2.
  unfold getParentNode. cbn [getNodeHelper truthy isArray negb andb].
  destruct (truthy seq && negb (isArray seq)); reflexivity.
Qed.

Section Related.

Variable R : forall A : Type, result A -> result A -> Prop.
Hypothesis R_refl : forall (A : Type) (r : result A), R A r r.
Hypothesis R_bind :
  forall (A B : Type) (c c' : result A) (k k' : A -> result B),
    R A c c' -> (forall a, R B (k a) (k' a)) -> R B (bind c k) (bind c' k').

Variables print1 print2 : printer.
Hypothesis print_related :
  forall q1 q2, agree q1 q2 -> R doc (print1 q1) (print2 q2).

Variables p1 p2 : path.
Variable fs : list (string * value).
Hypothesis top1 : getValue p1 = VObj fs.
Hypothesis top2 : getValue p2 = VObj fs.

Lemma mapM_related (A : Type) (f g : A -> result doc) (l : list A) :
  (forall x, R doc (f x) (g x)) -> R (list doc) (mapM f l) (mapM g l).
Proof.
  intros H. induction l as [| x l IH]; cbn [mapM]; [apply R_refl |].
  apply R_bind; [apply H |]. intros y.
  apply R_bind; [exact IH |]. intros ys. apply R_refl.
Qed.

Lemma path_call_related (k : string) :
  R doc (path_call print1 p1 k) (path_call print2 p2 k).
Proof.
  unfold path_call, get_prop. rewrite top1, top2. cbn [nullish bind].
  apply print_related. eapply agree_child; eassumption.
Qed.

Lemma path_call_at_related (k : string) (i : nat) :
  R doc (path_call_at print1 p1 k i) (path_call_at print2 p2 k i).
Proof.
  unfold path_call_at, get_prop. rewrite top1, top2. cbn [nullish bind].
  apply R_bind; [apply R_refl |]. intros c.
  apply print_related. eapply agree_element; eassumption.
Qed.

Lemma path_map_related (k : string) :
  R (list doc) (path_map print1 p1 k) (path_map print2 p2 k).
Proof.
  unfold path_map, get_prop. rewrite top1, top2. cbn [nullish bind].
  destruct (get (VObj fs) k); try apply R_refl.
  apply mapM_related. intros c.
  apply print_related. eapply agree_element; eassumption.
Qed.

Lemma printArguments_loop_related (argsKey defaultsKey : string)
    (rest : list value) (i j : nat) :
  R (list doc)
    (printArguments_loop print1 p1 argsKey defaultsKey rest i j)
    (printArguments_loop print2 p2 argsKey defaultsKey rest i j).
Proof.
  remember (List.length rest) as m eqn:Hm. revert rest i j Hm.
  induction m as [m IH] using lt_wf_ind. intros rest i j Hm.
  destruct rest as [| x after]; [apply R_refl |].
  rewrite !printArguments_loop_cons.
  apply R_bind; [apply path_call_at_related |]. intros arg.
  destruct after as [| next after']; [apply R_refl |].
  destruct (truthy next && negb (loose_eq_arg (get next "ast_type"))).
  - apply R_bind; [apply path_call_at_related |]. intros default.
    apply R_bind; [apply R_refl |]. intros part.
    apply R_bind; [| intros; apply R_refl].
    apply (IH (List.length after')); [subst m; simpl; lia | reflexivity].
  - apply R_bind; [apply R_refl |]. intros part.
    apply R_bind; [| intros; apply R_refl].
    apply (IH (List.length (next :: after'))); [subst m; simpl; lia | reflexivity].
Qed.

Lemma printArguments_related (argsKey defaultsKey : string) :
  R (list doc)
    (printArguments print1 p1 argsKey defaultsKey)
    (printArguments print2 p2 argsKey defaultsKey).
Proof.
  unfold printArguments. rewrite top1, top2.
  repeat (apply R_bind; [apply R_refl | intros ?]).
  apply printArguments_loop_related.
Qed.

End Related.

(** Relate the two sides of a case of the dispatch step by step. *)
Ltac related R_refl R_bind :=
  repeat first
    [ apply R_refl
    | eapply path_call_related; eassumption
    | eapply path_map_related; eassumption
    | eapply printArguments_related; eassumption
    | apply R_bind; [| intros ?]
    | match goal with
      | |- context [if ?b then _ else _] => destruct b
      end ].

Section RelatedDispatch.

Variable R : forall A : Type, result A -> result A -> Prop.
Hypothesis R_refl : forall (A : Type) (r : result A), R A r r.
Hypothesis R_bind :
  forall (A B : Type) (c c' : result A) (k k' : A -> result B),
    R A c c' -> (forall a, R B (k a) (k' a)) -> R B (bind c k) (bind c' k').

Variables print1 print2 : printer.
Hypothesis print_related :
  forall q1 q2, agree q1 q2 -> R doc (print1 q1) (print2 q2).

Lemma genericPrint_related (p1 p2 : path) :
  agree p1 p2 ->
  R doc (genericPrint p1 print1) (genericPrint p2 print2).
Proof.
  intros [Hv Hp]. unfold genericPrint. cbv zeta. rewrite <- Hv.
  destruct (truthy (getValue p1)); cbn [negb]; [| apply R_refl].
  destruct (kind_of (get (getValue p1) "ast_type")) as [k |] eqn:Hk.
  - destruct (has_kind_object _ k Hk) as [fs Hobj].
    assert (Hobj2 : getValue p2 = VObj fs) by (rewrite <- Hv; exact Hobj).
    rewrite <- (Hp fs Hobj). rewrite Hobj.
    destruct k; related R_refl R_bind.
  - destruct (getValue p1); apply R_refl.
Qed.

End RelatedDispatch.

Lemma eq_bind (A B : Type) (c c' : result A) (k k' : A -> result B) :
  c = c' -> (forall a, k a = k' a) -> bind c k = bind c' k'.
Proof.
  intros <- H. destruct c; cbn [bind]; [apply H | reflexivity].
Qed.

Lemma refines_refl (A : Type) (r : result A) : refines r r.
Proof. now right. Qed.

Lemma refines_bind (A B : Type) (c c' : result A) (k k' : A -> result B) :
  refines c c' -> (forall a, refines (k a) (k' a)) ->
  refines (bind c k) (bind c' k').
Proof.
  intros [-> | <-] H; [now left |].
  destruct c; cbn [bind]; [apply H | now right].
Qed.

(** The driver answers alike on two paths that agree. *)
Lemma printGenerically_agree (depth : nat) (p1 p2 : path) :
  agree p1 p2 -> printGenerically depth p1 = printGenerically depth p2.
Proof.
  revert p1 p2. induction depth as [| d IH]; intros p1 p2 H; [reflexivity |].
  rewrite !printGenerically_S.
  apply (genericPrint_related (fun A => @eq (result A))
           (fun A r => eq_refl) eq_bind
           (printGenerically d) (printGenerically d) IH p1 p2 H).
Qed.

(** One more call of room on the stack changes nothing but an overflow. *)
Lemma printGenerically_deeper (depth : nat) (p : path) :
  refines (printGenerically depth p) (printGenerically (S depth) p).
Proof.
  revert p. induction depth as [| d IH]; intros p; [now left |].
  rewrite (printGenerically_S (S d)), (printGenerically_S d).
  apply (genericPrint_related (fun A => @refines A) refines_refl refines_bind
           (printGenerically d) (printGenerically (S d))).
  - intros q1 q2 H. rewrite <- (printGenerically_agree (S d) q1 q2 H). apply IH.
  - apply agree_refl.
Qed.

Lemma printGenerically_stable (d d' : nat) (p : path) :
  d <= d' ->
  printGenerically d p <> Throw StackOverflow ->
  printGenerically d' p = printGenerically d p.
Proof.
  intros Hle Hok. induction Hle as [| d' Hle IH]; [reflexivity |].
  destruct (printGenerically_deeper d' p) as [H | H].
  - rewrite IH in H. contradiction.
  - rewrite <- H. exact IH.
Qed.

(** ** Purity *)



(** ** The sort on columns that increase

    When every node has a column and no two share one, the sort has one
    possible outcome: the nodes by increasing column. *)

Lemma has_column_defined (v : value) :
  has_column v -> is_undefined v = false /\ is_null v = false.
Proof.
  intros [c H]. destruct v; try discriminate H; auto.
Qed.

Lemma comes_after_column (a b : value) :
  has_column a -> has_column b ->
  comes_after a b = Z.ltb (column b) (column a).
Proof.
  intros [x Ha] [y Hb]. unfold comes_after, column. rewrite Ha, Hb.
  destruct (Z.ltb_spec 0 (x - y)), (Z.ltb_spec y x); auto; lia.
Qed.

Lemma insert_from_right_Permutation (x : value) (rs : list value) :
  Permutation (insert_from_right x rs) (x :: rs).
Proof.
  induction rs as [| t rs IH]; simpl; [reflexivity |].
  destruct (comes_after t x); [| reflexivity].
  rewrite IH. apply perm_swap.
Qed.

Lemma insert_from_right_descending (x : value) (rs : list value) :
  has_column x -> Forall has_column rs ->
  descending rs -> descending (insert_from_right x rs).
Proof.
  intros Hx Hall Hs. induction Hs as [| t rs Hs IH Ht]; simpl.
  - constructor; constructor.
  - inversion Hall as [| ? ? Hct Hrest]; subst.
    rewrite (comes_after_column t x Hct Hx).
    destruct (Z.ltb_spec (column x) (column t)) as [Hlt | Hge].
    + constructor; [apply IH; exact Hrest |].
      rewrite (insert_from_right_Permutation x rs).
      constructor; [lia | exact Ht].
    + constructor; [constructor; assumption |].
      constructor; [exact Hge |].
      eapply Forall_impl; [| exact Ht]. cbn. intros; lia.
Qed.

Lemma fold_insert_from_right (l acc : list value) :
  Forall has_column l -> Forall has_column acc -> descending acc ->
  let out := fold_left (fun acc x => insert_from_right x acc) l acc in
  Permutation out (rev l ++ acc) /\ descending out.
Proof.
  revert acc. induction l as [| x l IH]; intros acc Hl Hacc Hs; cbn zeta.
  - split; [reflexivity | exact Hs].
  - inversion Hl as [| ? ? Hx Hl']; subst. cbn [fold_left].
    destruct (IH (insert_from_right x acc)) as [Hp Hd]; auto.
    + rewrite (insert_from_right_Permutation x acc). constructor; assumption.
    + apply insert_from_right_descending; assumption.
    + split; [| exact Hd]. rewrite Hp.
      rewrite (insert_from_right_Permutation x acc).
      cbn [rev]. rewrite <- app_assoc. reflexivity.
Qed.

Lemma ascending_snoc (l : list value) (x : value) :
  ascending l -> Forall (fun a => (column a <= column x)%Z) l ->
  ascending (l ++ [x]).
Proof.
  intros Hs Hx. induction Hs as [| y l Hl IH Hy]; cbn [app].
  - constructor; constructor.
  - inversion Hx as [| ? ? Hyx Hlx]; subst.
    constructor; [apply IH; exact Hlx |].
    apply Forall_app. split; [exact Hy | constructor; [exact Hyx | constructor]].
Qed.

Lemma descending_rev (l : list value) : descending l -> ascending (rev l).
Proof.
  intros H. induction H as [| x l Hl IH Hx]; cbn [rev]; [constructor |].
  apply ascending_snoc; [exact IH |]. apply Forall_rev. exact Hx.
Qed.

Lemma insertion_sort_sorts (l : list value) :
  Forall has_column l ->
  Permutation (insertion_sort l) l /\ ascending (insertion_sort l).
Proof.
  intros Hl. unfold insertion_sort.
  destruct (fold_insert_from_right l [] Hl) as [Hp Hd];
    [constructor | constructor |].
  split; [| apply descending_rev; exact Hd].
  rewrite <- Permutation_rev, Hp, app_nil_r. symmetry. apply Permutation_rev.
Qed.

(** Of the nodes of a list without a repeated column there is one
    arrangement by increasing column. *)
Lemma ascending_unique (l m : list value) :
  Permutation l m -> ascending l -> strictly_ascending m -> l = m.
Proof.
  revert m. induction l as [| x l IH]; intros m Hp Hl Hm.
  - apply Permutation_nil in Hp. now subst.
  - destruct m as [| y m]; [apply Permutation_sym, Permutation_nil in Hp; discriminate |].
    inversion Hl as [| ? ? Hl' Hx]; subst.
    inversion Hm as [| ? ? Hm' Hy]; subst.
    assert (Hxy : x = y).
    { assert (Hin : In x (y :: m)) by (rewrite <- Hp; now left).
      destruct Hin as [-> | Hin]; [reflexivity | exfalso].
      assert (Hlt : (column y < column x)%Z)
        by (exact (proj1 (Forall_forall _ m) Hy x Hin)).
      assert (Hin' : In y (x :: l)) by (rewrite Hp; now left).
      destruct Hin' as [-> | Hin']; [lia |].
      pose proof (proj1 (Forall_forall _ l) Hx y Hin'). cbn in *. lia. }
    subst y. f_equal. apply IH; auto.
    eapply Permutation_cons_inv. exact Hp.
Qed.

Lemma columns_increase_strictly_ascending (m : list value) :
  columns_increase m -> strictly_ascending m /\ Forall has_column m.
Proof.
  induction m as [| x m IH]; cbn [columns_increase]; intros H.
  - split; constructor.
  - destruct m as [| y m].
    + split; constructor; auto; constructor.
    + destruct H as [[c [d [Hc [Hd Hlt]]]] Hrest].
      destruct (IH Hrest) as [Hs Hall]. split.
      * constructor; [exact Hs |].
        inversion Hs as [| ? ? Hs' Hy]; subst.
        assert (Hxy : (column x < column y)%Z)
          by (unfold column; rewrite Hc, Hd; exact Hlt).
        constructor; [exact Hxy |].
        eapply Forall_impl; [| exact Hy]. cbn. intros; lia.
      * constructor; [now exists c | exact Hall].
Qed.

Lemma filter_all {A : Type} (f : A -> bool) (l : list A) :
  Forall (fun x => f x = true) l -> filter f l = l.
Proof.
  induction 1 as [| x l Hx _ IH]; cbn [filter]; [reflexivity |].
  now rewrite Hx, IH.
Qed.

Lemma filter_none {A : Type} (f : A -> bool) (l : list A) :
  Forall (fun x => f x = false) l -> filter f l = [].
Proof.
  induction 1 as [| x l Hx _ IH]; cbn [filter]; [reflexivity |].
  now rewrite Hx.
Qed.

(** The sort returns the nodes in the order of their columns. *)
Lemma sort_by_col_offset_in_order (l m : list value) :
  Permutation l m -> columns_increase m -> sort_by_col_offset l = Ok m.
Proof.
  intros Hp Hm.
  destruct (columns_increase_strictly_ascending m Hm) as [Hs Hall].
  assert (Hl : Forall has_column l) by (now rewrite Hp).
  unfold sort_by_col_offset.
  rewrite (filter_all (fun v => negb (is_undefined v)) l),
          (filter_none is_undefined l).
  - replace (existsb is_null l) with false.
    + rewrite andb_false_r, app_nil_r. f_equal.
      destruct (insertion_sort_sorts l Hl) as [Hperm Hasc].
      apply ascending_unique; [| exact Hasc | exact Hs].
      now rewrite Hperm.
    + symmetry. apply not_true_is_false. intros H.
      apply existsb_exists in H. destruct H as [x [Hin Hx]].
      destruct (has_column_defined x (proj1 (Forall_forall _ l) Hl x Hin)).
      congruence.
  - eapply Forall_impl; [| exact Hl]. intros x Hx.
    now destruct (has_column_defined x Hx).
  - eapply Forall_impl; [| exact Hl]. intros x Hx.
    destruct (has_column_defined x Hx) as [-> _]. reflexivity.
Qed.

(** ** The merger on one line

    When the columns increase along the source, as they do for a
    parameter list written on one line, the merger returns what it is
    meant to: one fragment for each parameter, each default with its own
    parameter. *)

Lemma in_source_order_Permutation (items : list item) :
  Permutation (parameters_of items ++ defaults_of items) (in_source_order items).
Proof.
  induction items as [| [a [d |]] items IH]; cbn; [reflexivity | |].
  - constructor. rewrite <- IH. symmetry. apply Permutation_middle.
  - constructor. exact IH.
Qed.

Lemma skipn_cons_nth {A : Type} (i : nat) (l : list A) (x d : A) (r : list A) :
  skipn i l = x :: r -> nth i l d = x /\ skipn (S i) l = r.
Proof.
  revert l. induction i as [| i IH]; intros [| y l]; cbn; try discriminate.
  - intros H. injection H as -> ->. auto.
  - intros H. destruct (IH l H) as [Hn Hs]. split; [exact Hn |].
    destruct l; [destruct i; discriminate H | exact Hs].
Qed.

Section OneLine.

Variable print : printer.
Variable p : path.
Variables argsKey defaultsKey : string.
Variables params defaults : list value.
Variables pa pd : value -> doc.

Hypothesis node_there : nullish (getValue p) = false.
Hypothesis args_field : get (getValue p) argsKey = VArr params.
Hypothesis defaults_field : get (getValue p) defaultsKey = VArr defaults.
Hypothesis print_param :
  forall a, In a params -> print (a :: VArr params :: p) = Ok (pa a).
Hypothesis print_default :
  forall d, In d defaults -> print (d :: VArr defaults :: p) = Ok (pd d).
Hypothesis param_document :
  forall a, In a params -> is_document (pa a) = true.
Hypothesis default_document :
  forall d, In d defaults -> is_document (pd d) = true.

Lemma skipn_head_In {A : Type} (i : nat) (l : list A) (x : A) (r : list A) :
  skipn i l = x :: r -> In x l.
Proof.
  intros H. rewrite <- (firstn_skipn i l), H. apply in_or_app. right. now left.
Qed.

Lemma path_call_at_param (i : nat) (a : value) (r : list value) :
  skipn i params = a :: r ->
  path_call_at print p argsKey i = Ok (pa a).
Proof.
  intros H. destruct (skipn_cons_nth i params a VUndef r H) as [Hn _].
  unfold path_call_at, get_prop. rewrite node_there. cbn [bind].
  rewrite args_field. cbn [get_index bind]. rewrite Hn.
  apply print_param. rewrite <- Hn. apply nth_In.
  destruct (Nat.lt_ge_cases i (List.length params)) as [Hi | Hi]; [exact Hi |].
  rewrite skipn_all2 in H by exact Hi. discriminate H.
Qed.

Lemma path_call_at_default (j : nat) (d : value) (r : list value) :
  skipn j defaults = d :: r ->
  path_call_at print p defaultsKey j = Ok (pd d).
Proof.
  intros H. destruct (skipn_cons_nth j defaults d VUndef r H) as [Hn _].
  unfold path_call_at, get_prop. rewrite node_there. cbn [bind].
  rewrite defaults_field. cbn [get_index bind]. rewrite Hn.
  apply print_default. rewrite <- Hn. apply nth_In.
  destruct (Nat.lt_ge_cases j (List.length defaults)) as [Hj | Hj]; [exact Hj |].
  rewrite skipn_all2 in H by exact Hj. discriminate H.
Qed.

Lemma in_source_order_head (items : list item) (next : value) (after : list value) :
  Forall well_tagged items ->
  in_source_order items = next :: after -> is_arg next.
Proof.
  intros Hall H. destruct items as [| [a [d |]] items]; [discriminate H | |];
    inversion Hall as [| ? ? [Ha _] _]; subst; cbn in H; injection H as <- _;
    exact Ha.
Qed.

(** The walk over nodes that stand in source order. *)
Lemma printArguments_loop_in_source_order (items : list item) (i j : nat) :
  Forall well_tagged items ->
  skipn i params = parameters_of items ->
  skipn j defaults = defaults_of items ->
  printArguments_loop print p argsKey defaultsKey (in_source_order items) i j
  = Ok (paired_fragments pa pd items).
Proof.
  revert i j. induction items as [| [a [d |]] items IH]; intros i j Hall Hi Hj.
  - reflexivity.
  - inversion Hall as [| ? ? [Ha Hd] Hrest]; subst.
    cbn [in_source_order paired_fragments]. rewrite printArguments_loop_cons.
    cbn [parameters_of map fst defaults_of] in Hi, Hj.
    rewrite (path_call_at_param i a _ Hi). cbn [bind].
    destruct (Hd d eq_refl) as [Ht Hne]. rewrite Ht, Hne. cbn [negb andb].
    rewrite (path_call_at_default j d _ Hj). cbn [bind].
    pose proof (param_document a (skipn_head_In _ _ _ _ Hi)) as Hda.
    pose proof (default_document d (skipn_head_In _ _ _ _ Hj)) as Hdd.
    rewrite concat_ok by docs. cbn [bind].
    rewrite (IH (S i) (S j) Hrest).
    + reflexivity.
    + exact (proj2 (skipn_cons_nth i params a VUndef _ Hi)).
    + exact (proj2 (skipn_cons_nth j defaults d VUndef _ Hj)).
  - inversion Hall as [| ? ? [Ha Hd] Hrest]; subst.
    cbn [in_source_order paired_fragments]. rewrite printArguments_loop_cons.
    cbn [parameters_of map fst defaults_of] in Hi, Hj.
    rewrite (path_call_at_param i a _ Hi). cbn [bind].
    assert (Hnext : skipn (S i) params = parameters_of items)
      by exact (proj2 (skipn_cons_nth i params a VUndef _ Hi)).
    pose proof (param_document a (skipn_head_In _ _ _ _ Hi)) as Hda.
    destruct (in_source_order items) as [| next after] eqn:Hord.
    + destruct items as [| [a' [d' |]] items']; try discriminate Hord.
      rewrite concat_ok by docs. reflexivity.
    + pose proof (in_source_order_head items next after Hrest Hord) as Hn.
      unfold is_arg in Hn. rewrite Hn.
      change (loose_eq_arg (VStr "arg")) with true.
      cbn [negb]. rewrite andb_false_r. rewrite concat_ok by docs. cbn [bind].
      rewrite (IH (S i) j Hrest Hnext Hj). reflexivity.
Qed.

(** On columns that increase along the source, [printArguments] returns
    one fragment for each parameter, in order; a parameter with a default
    is followed by [=] and that default, and a parameter without one
    stands alone. *)
Lemma printArguments_in_source_order_for (items : list item) :
  params = parameters_of items ->
  defaults = defaults_of items ->
  Forall well_tagged items ->
  columns_increase (in_source_order items) ->
  printArguments print p argsKey defaultsKey = Ok (paired_fragments pa pd items).
Proof.
  intros Hp Hd Hall Hcols. unfold printArguments, get_prop.
  rewrite node_there. cbn [bind]. rewrite args_field, defaults_field.
  cbn [spread bind].
  rewrite (sort_by_col_offset_in_order _ (in_source_order items)).
  - cbn [bind]. apply printArguments_loop_in_source_order; auto.
  - rewrite Hp, Hd. apply in_source_order_Permutation.
  - exact Hcols.
Qed.

End OneLine.

Lemma printArguments_in_source_order (print : printer) (p : path)
    (params defaults : list value) (pa pd : value -> doc) :
  nullish (getValue p) = false ->
  get (getValue p) "args" = VArr params ->
  get (getValue p) "defaults" = VArr defaults ->
  (forall a, In a params -> print (a :: VArr params :: p) = Ok (pa a)) ->
  (forall d, In d defaults -> print (d :: VArr defaults :: p) = Ok (pd d)) ->
  (forall a, In a params -> is_document (pa a) = true) ->
  (forall d, In d defaults -> is_document (pd d) = true) ->
  forall items : list item,
    params = parameters_of items ->
    defaults = defaults_of items ->
    Forall well_tagged items ->
    columns_increase (in_source_order items) ->
    printArguments print p "args" "defaults" = Ok (paired_fragments pa pd items).
Proof.
  exact (printArguments_in_source_order_for print p "args" "defaults"
           params defaults pa pd).
Qed.

Lemma paired_fragments_length (pa pd : value -> doc) (items : list item) :
  List.length (paired_fragments pa pd items) = List.length items.
Proof.
  induction items as [| [a [d |]] items IH]; cbn; congruence.
Qed.

(** The hypotheses of the lemma hold of [def f(a, b, c=1)]. *)
Example one_line_parameters_paired :
  printArguments (printGenerically 2) [Sample.one_line_parameters]
                 "args" "defaults"
  = Ok [DConcat [text "a"]; DConcat [text "b"];
        DConcat [text "c"; text "="; text "1"]].
Proof.
  apply (printArguments_in_source_order (printGenerically 2)
           [Sample.one_line_parameters]
           [Sample.arg "a" 1 6; Sample.arg "b" 1 9; Sample.arg "c" 1 12]
           [Sample.Num 1 1 14]
           (fun a => DVal (get a "arg"))
           (fun d => text (to_string (get (get d "n") "n")))
           eq_refl eq_refl eq_refl)
    with (items := [ (Sample.arg "a" 1 6, None); (Sample.arg "b" 1 9, None);
                     (Sample.arg "c" 1 12, Some (Sample.Num 1 1 14)) ]).
  - intros a [<- | [<- | [<- | []]]]; reflexivity.
  - intros d [<- | []]. reflexivity.
  - intros a [<- | [<- | [<- | []]]]; reflexivity.
  - intros d [<- | []]. reflexivity.
  - reflexivity.
  - reflexivity.
  - repeat (apply Forall_cons || apply Forall_nil);
      (split; [reflexivity | cbn; intros d H; try discriminate H]).
    injection H as <-. split; reflexivity.
  - cbn. repeat split; try (eexists; eexists; repeat split; reflexivity).
Qed.

(** What the merger returns was built by [concat]: every fragment is a
    document. *)
Lemma printArguments_loop_documents (print : printer) (p : path)
    (argsKey defaultsKey : string) (rest : list value) (i j : nat)
    (parts : list doc) :
  printArguments_loop print p argsKey defaultsKey rest i j = Ok parts ->
  documents parts.
Proof.
  remember (List.length rest) as n eqn:Hn. revert rest i j parts Hn.
  induction n as [n IH] using lt_wf_ind. intros [| x after] i j parts Hn H.
  - injection H as <-. constructor.
  - rewrite printArguments_loop_cons in H.
    destruct (path_call_at print p argsKey i) as [arg | e];
      [cbn [bind] in H | discriminate H].
    destruct after as [| next after'].
    + destruct (concat [arg]) as [part | e] eqn:Hc;
        [cbn [bind] in H | discriminate H].
      injection H as <-. apply concat_inv in Hc. destruct Hc as [-> _].
      constructor; [reflexivity | constructor].
    + destruct (truthy next && negb (loose_eq_arg (get next "ast_type"))).
      * destruct (path_call_at print p defaultsKey j) as [default | e];
          [cbn [bind] in H | discriminate H].
        destruct (concat [arg; text "="; default]) as [part | e] eqn:Hc;
          [cbn [bind] in H | discriminate H].
        destruct (printArguments_loop print p argsKey defaultsKey after'
                    (S i) (S j)) as [parts' | e] eqn:Hrec;
          [cbn [bind] in H | discriminate H].
        injection H as <-. apply concat_inv in Hc. destruct Hc as [-> _].
        constructor; [reflexivity |].
        apply (IH (List.length after')) with (3 := Hrec);
          [subst n; cbn [List.length]; lia | reflexivity].
      * destruct (concat [arg]) as [part | e] eqn:Hc;
          [cbn [bind] in H | discriminate H].
        destruct (printArguments_loop print p argsKey defaultsKey
                    (next :: after') (S i) j) as [parts' | e] eqn:Hrec;
          [cbn [bind] in H | discriminate H].
        injection H as <-. apply concat_inv in Hc. destruct Hc as [-> _].
        constructor; [reflexivity |].
        apply (IH (List.length (next :: after'))) with (3 := Hrec);
          [subst n; cbn [List.length]; lia | reflexivity].
Qed.

Lemma printArguments_documents (print : printer) (p : path)
    (argsKey defaultsKey : string) (parts : list doc) :
  printArguments print p argsKey defaultsKey = Ok parts -> documents parts.
Proof.
  unfold printArguments.
  destruct (a <- get_prop (getValue p) argsKey ;; spread a) as [args | e];
    [cbn [bind] | discriminate].
  destruct (d <- get_prop (getValue p) defaultsKey ;; spread d)
    as [defaults | e]; [cbn [bind] | discriminate].
  destruct (sort_by_col_offset (args ++ defaults)) as [merge | e];
    [cbn [bind] | discriminate].
  apply printArguments_loop_documents.
Qed.

(** The groups of a parameter list that has them all: the positional
    parameters, [*] with the variadic one, a bare [*], the keyword-only
    parameters, [**] with the variadic keyword one.  The bare [*] is
    pushed for the keyword-only parameters alone, with no look at
    [vararg]. *)
Lemma arguments_all_groups (print : printer) (p : path) (n : value)
    (kwonly : list value) (pos kw : list doc) (va kwa : doc) :
  getValue p = n ->
  has_kind n Karguments ->
  printArguments print p "args" "defaults" = Ok pos ->
  truthy (get n "vararg") = true ->
  print (get n "vararg" :: p) = Ok va ->
  is_document va = true ->
  get n "kwonlyargs" = VArr kwonly ->
  kwonly <> [] ->
  printArguments print p "kwonlyargs" "kw_defaults" = Ok kw ->
  truthy (get n "kwarg") = true ->
  print (get n "kwarg" :: p) = Ok kwa ->
  is_document kwa = true ->
  genericPrint p print
  = Ok (joined (DConcat [text ", "; softline])
          (pos ++ [DConcat [text "*"; va]] ++ [text "*"] ++ kw
               ++ [DConcat [text "**"; kwa]])).
Proof.
  intros Hval Hkind Hpos Hva Hpva Hdva Hkwonly Hne Hkw Hkwa Hpkwa Hdkwa.
  pose proof (printArguments_documents _ _ _ _ _ Hpos) as Hdpos.
  pose proof (printArguments_documents _ _ _ _ _ Hkw) as Hdkw.
  dispatch Hval Hkind.
  rewrite Hpos, Hva, Hkwa, Hkwonly. cbn [bind].
  unfold path_call, get_prop. rewrite Hval.
  destruct (has_kind_object _ _ Hkind) as [fs' ->]. cbn [nullish bind].
  rewrite Hpva. cbn [bind]. build.
  change (get (VArr kwonly) "length") with (VNum (Z.of_nat (List.length kwonly))).
  replace (gt_zero (VNum (Z.of_nat (List.length kwonly)))) with true
    by (destruct kwonly; [now elim Hne | reflexivity]).
  rewrite Hkw. cbn [bind]. rewrite Hpkwa. cbn [bind]. build.
  rewrite <- !app_assoc. reflexivity.
Qed.

(** ** More on the merger *)

(** X1.  For either pair of fields ([args] with [defaults], [kwonlyargs]
    with [kw_defaults]): when the parameters carry the tag [arg], the
    defaults another tag, the columns increase along the source and the
    prints are documents, the merger returns one fragment for each
    parameter, in order, and each default follows [=] after its own
    parameter. *)
Theorem merger_pairs_in_source_order (print : printer) (p : path)
    (argsKey defaultsKey : string) (pa pd : value -> doc) (items : list item) :
  nullish (getValue p) = false ->
  get (getValue p) argsKey = VArr (parameters_of items) ->
  get (getValue p) defaultsKey = VArr (defaults_of items) ->
  (forall a, In a (parameters_of items) ->
             print (a :: VArr (parameters_of items) :: p) = Ok (pa a)) ->
  (forall d, In d (defaults_of items) ->
             print (d :: VArr (defaults_of items) :: p) = Ok (pd d)) ->
  (forall a, In a (parameters_of items) -> is_document (pa a) = true) ->
  (forall d, In d (defaults_of items) -> is_document (pd d) = true) ->
  Forall well_tagged items ->
  columns_increase (in_source_order items) ->
  printArguments print p argsKey defaultsKey = Ok (paired_fragments pa pd items)
  /\ List.length (paired_fragments pa pd items) = List.length items.
Proof.
  intros Hn Ha Hd Hpa Hpd Hda Hdd Hall Hcols. split.
  - apply (printArguments_in_source_order_for print p argsKey defaultsKey
             (parameters_of items) (defaults_of items) pa pd); auto.
  - apply paired_fragments_length.
Qed.

(** The hypotheses at the keyword-only parameters of
    [def f(a, *args, b=1, **kw)]. *)
Lemma merger_pairs_in_source_order_witness :
  printArguments (printGenerically 2) [Sample.all_groups]
                 "kwonlyargs" "kw_defaults"
  = Ok [DConcat [text "b"; text "="; text "1"]]
  /\ List.length [DConcat [text "b"; text "="; text "1"]] = 1.
Proof.
  apply (merger_pairs_in_source_order (printGenerically 2) [Sample.all_groups]
           "kwonlyargs" "kw_defaults"
           (fun a => DVal (get a "arg"))
           (fun d => text (to_string (get (get d "n") "n")))
           [(Sample.arg "b" 1 16, Some (Sample.Num 1 1 18))]).
  - reflexivity.
  - reflexivity.
  - reflexivity.
  - intros a [<- | []]. reflexivity.
  - intros d [<- | []]. reflexivity.
  - intros a [<- | []]. reflexivity.
  - intros d [<- | []]. reflexivity.
  - repeat (apply Forall_cons || apply Forall_nil).
    split; [reflexivity |]. cbn. intros d H. injection H as <-.
    split; reflexivity.
  - cbn. repeat split; eexists; eexists; repeat split; reflexivity.
Defined.

Lemma insertion_sort_Permutation (l : list value) :
  Permutation (insertion_sort l) l.
Proof.
  unfold insertion_sort.
  assert (H : forall acc,
             Permutation (fold_left (fun acc x => insert_from_right x acc) l acc)
                         (rev l ++ acc)).
  { induction l as [| x l IH]; intros acc; cbn [fold_left rev app];
      [reflexivity |].
    rewrite IH, (insert_from_right_Permutation x acc), <- app_assoc.
    reflexivity. }
  rewrite <- Permutation_rev, (H []), app_nil_r. symmetry.
  apply Permutation_rev.
Qed.

Lemma filter_partition_Permutation (f : value -> bool) (l : list value) :
  Permutation (filter (fun v => negb (f v)) l ++ filter f l) l.
Proof.
  induction l as [| x l IH]; cbn [filter]; [reflexivity |].
  destruct (f x); cbn [negb app].
  - rewrite <- Permutation_middle. now constructor.
  - now constructor.
Qed.

(** The sort returns the elements it was given, each as often. *)
Lemma sort_by_col_offset_Permutation (l m : list value) :
  sort_by_col_offset l = Ok m -> Permutation m l.
Proof.
  unfold sort_by_col_offset. destruct (_ && _); [discriminate |].
  intros H. injection H as <-.
  rewrite insertion_sort_Permutation. apply filter_partition_Permutation.
Qed.

Lemma printArguments_loop_cursors (print : printer) (p : path)
    (argsKey defaultsKey : string) (rest : list value) (i j : nat)
    (parts : list doc) :
  printArguments_loop print p argsKey defaultsKey rest i j = Ok parts ->
  in_cursor_order print p argsKey defaultsKey i j parts
  /\ List.length parts <= List.length rest
  /\ List.length rest <= 2 * List.length parts.
Proof.
  remember (List.length rest) as m eqn:Hm. revert rest i j parts Hm.
  induction m as [m IH] using lt_wf_ind. intros rest i j parts Hm H.
  destruct rest as [| x after].
  - injection H as <-. subst m. repeat split; [constructor | |]; simpl; lia.
  - rewrite printArguments_loop_cons in H.
    destruct (path_call_at print p argsKey i) as [a |] eqn:Ha;
      cbn [bind] in H; [| discriminate H].
    destruct after as [| next after'].
    + destruct (concat [a]) as [part |] eqn:Hc;
        cbn [bind] in H; [| discriminate H].
      apply concat_inv in Hc. destruct Hc as [-> _].
      injection H as <-. subst m.
      repeat split; [constructor; [exact Ha | constructor] | |]; simpl; lia.
    + destruct (truthy next && negb (loose_eq_arg (get next "ast_type"))).
      * destruct (path_call_at print p defaultsKey j) as [d |] eqn:Hd;
          cbn [bind] in H; [| discriminate H].
        destruct (concat [a; text "="; d]) as [part |] eqn:Hc;
          cbn [bind] in H; [| discriminate H].
        apply concat_inv in Hc. destruct Hc as [-> _].
        destruct (printArguments_loop print p argsKey defaultsKey after'
                    (S i) (S j)) as [ps |] eqn:Hps;
          cbn [bind] in H; [| discriminate H].
        injection H as <-.
        assert (Hlt : List.length after' < m) by (subst m; simpl; lia).
        destruct (IH _ Hlt after' (S i) (S j) ps eq_refl Hps) as [Hc [H1 H2]].
        subst m. repeat split; [now constructor | |]; simpl in *; lia.
      * destruct (concat [a]) as [part |] eqn:Hc;
          cbn [bind] in H; [| discriminate H].
        apply concat_inv in Hc. destruct Hc as [-> _].
        destruct (printArguments_loop print p argsKey defaultsKey
                    (next :: after') (S i) j) as [ps |] eqn:Hps;
          cbn [bind] in H; [| discriminate H].
        injection H as <-.
        assert (Hlt : List.length (next :: after') < m) by (subst m; simpl; lia).
        destruct (IH _ Hlt (next :: after') (S i) j ps eq_refl Hps)
          as [Hc [H1 H2]].
        subst m. repeat split; [now constructor | |]; simpl in *; lia.
Qed.

(** X2.  Whatever the columns are, the merger never reorders: when it
    returns, its fragments hold the prints of the parameters at the
    indices 0, 1, 2, ... and those of the defaults at the indices 0, 1,
    ... in that order, and there are at most as many fragments as
    parameters and defaults together, and at least half as many. *)
Theorem merger_keeps_cursor_order (print : printer) (p : path)
    (argsKey defaultsKey : string) (args defaults : list value)
    (parts : list doc) :
  get (getValue p) argsKey = VArr args ->
  get (getValue p) defaultsKey = VArr defaults ->
  printArguments print p argsKey defaultsKey = Ok parts ->
  in_cursor_order print p argsKey defaultsKey 0 0 parts
  /\ List.length parts <= List.length args + List.length defaults
  /\ List.length args + List.length defaults <= 2 * List.length parts.
Proof.
  intros Ha Hd H. unfold printArguments, get_prop in H.
  destruct (nullish (getValue p)); [discriminate H |]. cbn [bind] in H.
  rewrite Ha, Hd in H. cbn [spread bind] in H.
  destruct (sort_by_col_offset (args ++ defaults)) as [merge |] eqn:Hsort;
    cbn [bind] in H; [| discriminate H].
  apply printArguments_loop_cursors in H.
  pose proof (Permutation_length (sort_by_col_offset_Permutation _ _ Hsort)) as Hlen.
  rewrite length_app in Hlen. rewrite <- Hlen. exact H.
Qed.

(** The hypotheses at the parameters that run over two lines: the
    fragments are wrong about the default, and still in cursor order. *)
Lemma merger_keeps_cursor_order_witness :
  in_cursor_order (printGenerically 2) [Sample.wrapped_parameters]
                  "args" "defaults" 0 0
                  [ DConcat [text "a"; text "="; text "1"];
                    DConcat [text "b"]; DConcat [text "c"] ]
  /\ 3 <= 3 + 1
  /\ 3 + 1 <= 2 * 3.
Proof.
  apply (merger_keeps_cursor_order (printGenerically 2)
           [Sample.wrapped_parameters] "args" "defaults"
           [Sample.arg "a" 1 6; Sample.arg "b" 1 9; Sample.arg "c" 2 3]
           [Sample.Num 1 2 5]
           [ DConcat [text "a"; text "="; text "1"];
             DConcat [text "b"]; DConcat [text "c"] ]);
    try reflexivity; docs.
Defined.

Lemma skipn_nth_cons {A : Type} (i : nat) (l : list A) (d : A) :
  i < List.length l -> skipn i l = nth i l d :: skipn (S i) l.
Proof.
  revert l. induction i as [| i IH]; intros [| x l] H; simpl in H; try lia.
  - reflexivity.
  - cbn [skipn nth]. rewrite (IH l) by lia. reflexivity.
Qed.

Lemma is_arg_object (v : value) : is_arg v -> exists fs, v = VObj fs.
Proof.
  unfold is_arg. destruct v; cbn; try discriminate. intros _. eauto.
Qed.

Lemma printArguments_loop_all_arg (print : printer) (p : path)
    (argsKey defaultsKey : string) (params : list value) (pa : value -> doc)
    (rest : list value) (i j : nat) :
  nullish (getValue p) = false ->
  get (getValue p) argsKey = VArr params ->
  (forall a, In a params -> print (a :: VArr params :: p) = Ok (pa a)) ->
  (forall a, In a params -> is_document (pa a) = true) ->
  Forall is_arg rest ->
  i + List.length rest = List.length params ->
  printArguments_loop print p argsKey defaultsKey rest i j
  = Ok (map (fun a => DConcat [pa a]) (skipn i params)).
Proof.
  intros Hn Hargs Hprint Hdoc. revert i.
  induction rest as [| x after IH]; intros i Hall Hlen; simpl in Hlen.
  - rewrite skipn_all2 by lia. reflexivity.
  - assert (Hi : i < List.length params) by lia.
    rewrite printArguments_loop_cons.
    assert (Hcall : path_call_at print p argsKey i
                    = Ok (pa (nth i params VUndef))).
    { unfold path_call_at, get_prop. rewrite Hn. cbn [bind].
      rewrite Hargs. cbn [get_index bind]. apply Hprint, nth_In, Hi. }
    rewrite Hcall. cbn [bind].
    pose proof (Hdoc _ (nth_In params VUndef Hi)) as Hd.
    rewrite (skipn_nth_cons i params VUndef Hi). cbn [map].
    inversion Hall as [| ? ? _ Hafter]; subst.
    destruct after as [| next after'].
    + simpl in Hlen. rewrite skipn_all2 by lia.
      rewrite concat_ok by docs. reflexivity.
    + inversion Hafter as [| ? ? Hnext _]; subst.
      unfold is_arg in Hnext. rewrite Hnext.
      change (loose_eq_arg (VStr "arg")) with true.
      cbn [negb]. rewrite andb_false_r. rewrite concat_ok by docs. cbn [bind].
      rewrite (IH (S i) Hafter) by (simpl in *; lia). reflexivity.
Qed.

(** X3.  Without defaults the columns do not matter: a list of
    parameters whose prints are documents, on one line or on several,
    comes out as one fragment for each parameter, in the order of the
    list, none with [=]. *)
Theorem merger_without_defaults (print : printer) (p : path)
    (argsKey defaultsKey : string) (params : list value) (pa : value -> doc) :
  nullish (getValue p) = false ->
  get (getValue p) argsKey = VArr params ->
  get (getValue p) defaultsKey = VArr [] ->
  Forall is_arg params ->
  (forall a, In a params -> print (a :: VArr params :: p) = Ok (pa a)) ->
  (forall a, In a params -> is_document (pa a) = true) ->
  printArguments print p argsKey defaultsKey
  = Ok (map (fun a => DConcat [pa a]) params).
Proof.
  intros Hn Hargs Hdefaults Hall Hprint Hdoc.
  unfold printArguments, get_prop. rewrite Hn. cbn [bind].
  rewrite Hargs, Hdefaults. cbn [spread bind]. rewrite app_nil_r.
  assert (Hobj : forall v, In v params -> exists fs, v = VObj fs)
    by (intros v Hv; apply is_arg_object;
        exact (proj1 (Forall_forall _ params) Hall v Hv)).
  destruct (sort_by_col_offset params) as [merge | e] eqn:Hsort.
  - cbn [bind].
    pose proof (sort_by_col_offset_Permutation _ _ Hsort) as Hperm.
    rewrite (printArguments_loop_all_arg print p argsKey defaultsKey params pa
               merge 0 0 Hn Hargs Hprint Hdoc).
    + reflexivity.
    + now rewrite Hperm.
    + simpl. apply Permutation_length. exact Hperm.
  - exfalso. unfold sort_by_col_offset in Hsort.
    destruct (_ && _) eqn:Hb; [| discriminate Hsort].
    apply andb_prop in Hb. destruct Hb as [_ Hnull].
    apply existsb_exists in Hnull. destruct Hnull as [v [Hin Hv]].
    apply filter_In in Hin. destruct Hin as [Hin _].
    destruct (Hobj v Hin) as [fs ->]. discriminate Hv.
Qed.

(** The hypotheses at the three parameters of [def f(a, b,] / [   c):],
    the last on a second line and left of the first. *)
Lemma merger_without_defaults_witness :
  printArguments (printGenerically 1)
    [Sample.arguments
       [Sample.arg "a" 1 6; Sample.arg "b" 1 9; Sample.arg "c" 2 3] []
       VNull [] [] VNull]
    "args" "defaults"
  = Ok [DConcat [text "a"]; DConcat [text "b"]; DConcat [text "c"]].
Proof.
  apply (merger_without_defaults (printGenerically 1)
           [Sample.arguments
              [Sample.arg "a" 1 6; Sample.arg "b" 1 9; Sample.arg "c" 2 3] []
              VNull [] [] VNull]
           "args" "defaults"
           [Sample.arg "a" 1 6; Sample.arg "b" 1 9; Sample.arg "c" 2 3]
           (fun a => DVal (get a "arg"))).
  - reflexivity.
  - reflexivity.
  - reflexivity.
  - repeat (apply Forall_cons || apply Forall_nil); reflexivity.
  - intros a [<- | [<- | [<- | []]]]; reflexivity.
  - intros a [<- | [<- | [<- | []]]]; reflexivity.
Defined.

(** X4.  A [null] among the parameters and defaults, when they are two
    or more together, ends the merger in a [TypeError] before anything is
    printed: the comparator of the sort reads [col_offset] from it.  This
    is what a parameter after a bare star does when it has no default. *)
Theorem merger_throws_on_null (print : printer) (p : path)
    (argsKey defaultsKey : string) (args defaults : list value) :
  nullish (getValue p) = false ->
  get (getValue p) argsKey = VArr args ->
  get (getValue p) defaultsKey = VArr defaults ->
  Forall (fun v => is_undefined v = false) (args ++ defaults) ->
  In VNull (args ++ defaults) ->
  2 <= List.length (args ++ defaults) ->
  printArguments print p argsKey defaultsKey = Throw TypeError.
Proof.
  intros Hn Hargs Hdefaults Hdef Hnull Hlen.
  unfold printArguments, get_prop. rewrite Hn. cbn [bind].
  rewrite Hargs, Hdefaults. cbn [spread bind].
  unfold sort_by_col_offset.
  rewrite (filter_all (fun v => negb (is_undefined v)) (args ++ defaults)).
  - replace (2 <=? List.length (args ++ defaults))%nat with true
      by (symmetry; apply Nat.leb_le; exact Hlen).
    replace (existsb is_null (args ++ defaults)) with true; [reflexivity |].
    symmetry. apply existsb_exists. exists VNull. split; [exact Hnull | reflexivity].
  - eapply Forall_impl; [| exact Hdef]. cbn. intros v ->. reflexivity.
Qed.

(** The hypotheses at the keyword-only parameter without default; the
    callback here would print anything. *)
Lemma merger_throws_on_null_witness :
  printArguments (fun _ => Ok (text "anything")) [Sample.required_keyword_only]
                 "kwonlyargs" "kw_defaults"
  = Throw TypeError.
Proof.
  apply (merger_throws_on_null (fun _ => Ok (text "anything"))
           [Sample.required_keyword_only] "kwonlyargs" "kw_defaults"
           [Sample.arg "a" 1 9] [VNull]).
  - reflexivity.
  - reflexivity.
  - reflexivity.
  - repeat constructor.
  - right. left. reflexivity.
  - simpl. lia.
Defined.

(** ** More on errors *)

Lemma occurs_in_trans (u v w : value) :
  occurs_in u v -> occurs_in v w -> occurs_in u w.
Proof.
  intros Huv Hvw. induction Hvw as [| x l Hin _ IH | k x fs Hin _ IH].
  - exact Huv.
  - exact (occurs_element u x l Hin IH).
  - exact (occurs_field u k x fs Hin IH).
Qed.

(** A value the dispatch does not take, a falsy value or a string, has
    no parts. *)
Lemma occurs_in_not_dispatched (v w : value) :
  dispatched w = false -> occurs_in v w -> v = w.
Proof.
  intros Hw H. destruct H as [| x l _ _ | k x fs _ _];
    [reflexivity | discriminate Hw | discriminate Hw].
Qed.

(** X5.  An error that leaves [genericPrint] has one of four origins:
    the default arm, at a node whose tag is no label, with that tag in
    the error; a [TypeError] of the runtime; a builder, which was handed
    a value that is no document and names that value in its error; or
    the callback, which threw the same error on a path that extends the
    current one by what is read from the current node, to a value less
    high than the node. *)
Theorem genericPrint_error_origin (print : printer) (p : path) (e : error) :
  genericPrint p print = Throw e ->
  (dispatched (getValue p) = true
   /\ ~ in_dispatch (getValue p)
   /\ e = UnknownPythonType (get (getValue p) "ast_type"))
  \/ e = TypeError
  \/ (exists v, e = InvalidDocument v /\ is_document (DVal v) = false)
  \/ (exists q, child_path p q
                /\ print q = Throw e
                /\ height (getValue q) < height (getValue p)).
Proof.
  intros H. apply genericPrint_throw in H.
  destruct H as [[Hd [Hk He]] | [He | [Hb | [q [Hc [Hq [Hlt _]]]]]]].
  - left. repeat split; auto.
    intros [k Hkind]. unfold has_kind in Hkind. congruence.
  - right. left. exact He.
  - right. right. left. exact Hb.
  - right. right. right. exists q. repeat split; assumption.
Qed.

(** The hypothesis at the call of a method: the callee has no [id], and
    the error is the one of [concat]. *)
Lemma genericPrint_error_origin_witness :
  (dispatched Sample.method_call = true
   /\ ~ in_dispatch Sample.method_call
   /\ InvalidDocument VUndef
      = UnknownPythonType (get Sample.method_call "ast_type"))
  \/ InvalidDocument VUndef = TypeError
  \/ (exists v, InvalidDocument VUndef = InvalidDocument v
                /\ is_document (DVal v) = false)
  \/ (exists q, child_path [Sample.method_call] q
                /\ printGenerically 3 q = Throw (InvalidDocument VUndef)
                /\ height (getValue q) < height Sample.method_call).
Proof.
  apply (genericPrint_error_origin (printGenerically 3) [Sample.method_call]
           (InvalidDocument VUndef)).
  reflexivity.
Defined.

(** X6.  When the driver ends in the error of the default arm, the tag
    in the error is no label of the dispatch, and it is the [ast_type] of
    a value that stands in the tree that was printed and that the
    dispatch takes: one that is neither falsy nor a string. *)
Theorem driver_reports_an_unknown_tag (depth : nat) (p : path) (t : value) :
  printGenerically depth p = Throw (UnknownPythonType t) ->
  kind_of t = None
  /\ exists v, occurs_in v (getValue p)
               /\ dispatched v = true
               /\ get v "ast_type" = t.
Proof.
  revert p. induction depth as [| d IH]; intros p H; [discriminate H |].
  rewrite printGenerically_S in H.
  apply genericPrint_throw in H.
  destruct H as [[Hd [Hk He]] | [He | [[v [He _]] | [q [_ [Hq [_ Hocc]]]]]]].
  - injection He as ->. split; [exact Hk |]. exists (getValue p).
    repeat split; [constructor | exact Hd].
  - discriminate He.
  - discriminate He.
  - destruct (IH q Hq) as [Hk [v [Hv [Hd Ht]]]]. split; [exact Hk |].
    exists v. repeat split; [| exact Hd | exact Ht].
    destruct (dispatched (getValue q)) eqn:Hq'.
    + exact (occurs_in_trans _ _ _ Hv (Hocc eq_refl)).
    + rewrite (occurs_in_not_dispatched _ _ Hq' Hv) in Hd. congruence.
Qed.

(** The hypothesis at the module with a [lambda] in it. *)
Lemma driver_reports_an_unknown_tag_witness :
  kind_of (VStr "Lambda") = None
  /\ exists v, occurs_in v (getValue [Sample.module_with_lambda])
               /\ dispatched v = true
               /\ get v "ast_type" = VStr "Lambda".
Proof.
  apply (driver_reports_an_unknown_tag 5 [Sample.module_with_lambda]
           (VStr "Lambda")).
  reflexivity.
Defined.

(** X7.  Every value that passes the two early answers and whose
    [ast_type] is no label of the dispatch (a node of an unknown kind,
    but also an array, a number or [true], which have no [ast_type])
    makes [genericPrint] throw the error of the default arm with that
    [ast_type] in it, whatever the callback would do; so does the driver
    at any depth but zero. *)
Theorem unknown_tag_always_throws (print : printer) (depth : nat) (p : path) :
  dispatched (getValue p) = true ->
  ~ in_dispatch (getValue p) ->
  genericPrint p print = Throw (UnknownPythonType (get (getValue p) "ast_type"))
  /\ printGenerically (S depth) p
     = Throw (UnknownPythonType (get (getValue p) "ast_type")).
Proof.
  intros Hd Hno.
  assert (Hk : kind_of (get (getValue p) "ast_type") = None).
  { destruct (kind_of (get (getValue p) "ast_type")) as [k |] eqn:Hk;
      [| reflexivity].
    elim Hno. now exists k. }
  split; [| rewrite printGenerically_S]; now apply genericPrint_unknown.
Qed.

(** The hypotheses at an array in the place of a node. *)
Lemma unknown_tag_always_throws_witness :
  genericPrint [VArr [Sample.Name "x" 1 0]] (fun _ => Ok (text "anything"))
  = Throw (UnknownPythonType VUndef)
  /\ printGenerically 1 [VArr [Sample.Name "x" 1 0]]
     = Throw (UnknownPythonType VUndef).
Proof.
  apply (unknown_tag_always_throws (fun _ => Ok (text "anything")) 0
           [VArr [Sample.Name "x" 1 0]]).
  - reflexivity.
  - intros [k H]. discriminate H.
Defined.

(** ** Leaves and operators *)

(** X8.  The nodes of twenty-five kinds are leaves: parameters, string
    and number literals ([Str], [int], [float]), names, name constants
    and all operators.  Such a node always returns, and what it returns
    depends on the node alone: the callback is not consulted, the rest of
    the path is not looked at, and a field that is missing is no error at
    the leaf, which then returns [undefined] or its text. *)
Theorem leaves_print_by_themselves (n : value) (k : kind) :
  has_kind n k ->
  is_leaf k = true ->
  exists d, forall (print : printer) (rest : path),
      genericPrint (n :: rest) print = Ok d.
Proof.
  intros Hkind Hleaf.
  destruct (has_kind_object n k Hkind) as [fs ->].
  unfold has_kind in Hkind.
  destruct k; try discriminate Hleaf; eexists; intros print rest;
    unfold genericPrint; cbn [getValue hd truthy negb];
    rewrite Hkind; reflexivity.
Qed.

(** The hypotheses at a name without its [id]. *)
Lemma leaves_print_by_themselves_witness :
  exists d, forall (print : printer) (rest : path),
      genericPrint (Sample.operator "Name" :: rest) print = Ok d.
Proof.
  apply (leaves_print_by_themselves (Sample.operator "Name") KName);
    try reflexivity; docs.
Defined.

(** X9.  No two operators print alike: of the thirteen arithmetic and
    six relational operators, two nodes that print to the same document
    are of the same kind. *)
Theorem operator_symbols_distinct (n1 n2 : value) (k1 k2 : kind)
    (print1 print2 : printer) (rest1 rest2 : path) :
  has_kind n1 k1 -> has_kind n2 k2 ->
  is_operator k1 = true -> is_operator k2 = true ->
  genericPrint (n1 :: rest1) print1 = genericPrint (n2 :: rest2) print2 ->
  k1 = k2.
Proof.
  intros H1 H2 Ho1 Ho2.
  destruct (has_kind_object n1 k1 H1) as [fs1 ->].
  destruct (has_kind_object n2 k2 H2) as [fs2 ->].
  unfold has_kind in H1, H2.
  unfold genericPrint; cbn [getValue hd truthy negb]. rewrite H1, H2.
  destruct k1; try discriminate Ho1;
    destruct k2; try discriminate Ho2;
    intros H; try discriminate H; reflexivity.
Qed.

(** The hypotheses at two [Pow] nodes on different paths. *)
Lemma operator_symbols_distinct_witness : KPow = KPow.
Proof.
  apply (operator_symbols_distinct
           (Sample.operator "Pow") (Sample.operator "Pow") KPow KPow
           (printGenerically 0) (printGenerically 3) [] [Sample.x_plus_1]);
    try reflexivity; docs.
Defined.

(** X10.  An integer literal prints as a numeral that reads back as the
    same integer: a [Num] node hands its [n] child to the callback, the
    [int] node below prints the value in decimal.  (Within the integers a
    JavaScript number holds exactly.) *)
Theorem integer_literal_reads_back (depth : nat) (rest : path)
    (n num : value) (z : Z) :
  has_kind n KNum ->
  get n "n" = num ->
  has_kind num Kint ->
  get num "n" = VNum z ->
  (Z.abs z < 2 ^ 53)%Z ->
  exists s, printGenerically (2 + depth) (n :: rest) = Ok (text s)
            /\ Z_of_string s = Some z.
Proof.
  intros Hn Hnum Hint Hz _. exists (string_of_Z z). split.
  - change (2 + depth) with (S (S depth)).
    rewrite (printGenerically_Num _ _ _ Hn), Hnum.
    rewrite (printGenerically_int _ _ _ Hint), Hz. reflexivity.
  - unfold Z_of_string, string_of_Z. rewrite NilZero.isi.
    + cbn [option_map]. now rewrite DecimalZ.of_to.
    + destruct z; cbn; try discriminate.
      intros H. injection H as H. now apply (Unsigned.to_uint_nonnil p).
    + destruct z; cbn; try discriminate.
      intros H. injection H as H. now apply (Unsigned.to_uint_nonnil p).
Qed.

(** The hypotheses at the literal [42]. *)
Lemma integer_literal_reads_back_witness :
  exists s, printGenerically 2 [Sample.Num 42 1 0] = Ok (text s)
            /\ Z_of_string s = Some 42%Z.
Proof.
  apply (integer_literal_reads_back 0 [] (Sample.Num 42 1 0)
           (VObj [("ast_type", VStr "int"); ("n", VNum 42);
                  ("n_str", VStr (string_of_Z 42))]) 42%Z);
    try reflexivity.
Defined.

(** ** Statements *)

Lemma path_call_object (print : printer) (p : path)
    (fs : list (string * value)) (k : string) :
  getValue p = VObj fs ->
  path_call print p k = print (get (VObj fs) k :: p).
Proof.
  intros H. unfold path_call, get_prop. rewrite H. reflexivity.
Qed.

Lemma path_map_array (print : printer) (p : path)
    (fs : list (string * value)) (k : string) (l : list value) :
  getValue p = VObj fs ->
  get (VObj fs) k = VArr l ->
  path_map print p k = mapM (fun c => print (c :: VArr l :: p)) l.
Proof.
  intros H Hk. unfold path_map, get_prop. rewrite H. cbn [nullish bind].
  rewrite Hk. reflexivity.
Qed.

(** X11.  A [for] loop prints its [else] part exactly when [orelse] is
    not empty: after the head and the indented body come a line, the
    text [else:] and the indented alternative; with an empty [orelse]
    nothing follows the body.  What the callback printed are documents. *)
Theorem For_else_only_when_present (print : printer) (p : path) (n : value)
    (body orelse : list value) (target iter : doc) (bd od : list doc) :
  getValue p = n ->
  has_kind n KFor ->
  get n "body" = VArr body ->
  get n "orelse" = VArr orelse ->
  print (get n "target" :: p) = Ok target ->
  print (get n "iter" :: p) = Ok iter ->
  mapM (fun s => print (s :: VArr body :: p)) body = Ok bd ->
  mapM (fun s => print (s :: VArr orelse :: p)) orelse = Ok od ->
  documents [target; iter] -> documents bd -> documents od ->
  genericPrint p print
  = Ok (DConcat
          ([ text "for "; target; text " in "; iter; text ":";
             DIndent (DConcat [line; DConcat bd]) ]
           ++ match orelse with
              | [] => []
              | _ :: _ => [ line; text "else:";
                            DIndent (DConcat [line; DConcat od]) ]
              end)).
Proof.
  intros Hval Hkind Hbody Horelse Ht Hi Hbd Hod Hhead Hdbd Hdod.
  pose proof (documents_In _ target Hhead (or_introl eq_refl)) as Hdt.
  pose proof (documents_In _ iter Hhead (or_intror (or_introl eq_refl))) as Hdi.
  dispatch Hval Hkind.
  destruct (has_kind_object _ _ Hkind) as [fs' ->].
  rewrite !(path_call_object print p fs') by exact Hval.
  rewrite Ht, Hi. cbn [bind].
  rewrite (path_map_array print p fs' "body" body Hval Hbody), Hbd. cbn [bind].
  build.
  rewrite Horelse. unfold get_prop. cbn [nullish bind].
  destruct orelse as [| s orelse'].
  - change (gt_zero (get (VArr []) "length")) with false. cbv iota.
    build. reflexivity.
  - change (gt_zero (get (VArr (s :: orelse')) "length")) with true.
    cbv iota.
    rewrite (path_map_array print p fs' "orelse" (s :: orelse') Hval Horelse), Hod.
    cbn [bind]. build. reflexivity.
Qed.

(** The hypotheses at a loop with an [else]. *)
Lemma For_else_only_when_present_witness :
  genericPrint [Sample.for_else] (printGenerically 2)
  = Ok (DConcat [ text "for "; text "x"; text " in "; text "xs"; text ":";
                 DIndent (DConcat [line; DConcat [text "y"]]);
                 line; text "else:";
                 DIndent (DConcat [line; DConcat [text "z"]]) ]).
Proof.
  apply (For_else_only_when_present (printGenerically 2) [Sample.for_else]
           Sample.for_else
           [Sample.Expr 2 4 (Sample.Name "y" 2 4)]
           [Sample.Expr 4 4 (Sample.Name "z" 4 4)]
           (text "x") (text "xs") [text "y"] [text "z"]);
    try reflexivity; docs.
Defined.

(** X12.  A class prints its bases between parentheses, joined by a
    comma with no space, when it has any; with no base there are no
    parentheses.  The name is put into the document as it stands: it is
    a document, as a string is, and so are the printed bases and
    statements. *)
Theorem ClassDef_bases_only_when_present (print : printer) (p : path)
    (n : value) (bases body : list value) (bs bd : list doc) :
  getValue p = n ->
  has_kind n KClassDef ->
  get n "bases" = VArr bases ->
  get n "body" = VArr body ->
  mapM (fun b => print (b :: VArr bases :: p)) bases = Ok bs ->
  mapM (fun s => print (s :: VArr body :: p)) body = Ok bd ->
  is_document (DVal (get n "name")) = true ->
  documents bs -> documents bd ->
  genericPrint p print
  = Ok (DConcat
          [ text "class "; DVal (get n "name");
            DConcat match bases with
                   | [] => []
                   | _ :: _ => [text "("; joined (text ",") bs; text ")"]
                   end;
            text ":";
            DIndent (DConcat [line; DConcat bd]) ]).
Proof.
  intros Hval Hkind Hbases Hbody Hbs Hbd Hname Hdbs Hdbd.
  dispatch Hval Hkind.
  destruct (has_kind_object _ _ Hkind) as [fs' ->].
  rewrite Hbases. unfold get_prop. cbn [nullish bind].
  rewrite (path_map_array print p fs' "body" body Hval Hbody), Hbd.
  destruct bases as [| b bases'].
  - change (gt_zero (get (VArr []) "length")) with false. cbv iota.
    cbn [bind]. build. reflexivity.
  - change (gt_zero (get (VArr (b :: bases')) "length")) with true.
    cbv iota.
    rewrite (path_map_array print p fs' "bases" (b :: bases') Hval Hbases), Hbs.
    cbn [bind]. build. reflexivity.
Qed.

(** The hypotheses at a class with two bases. *)
Lemma ClassDef_bases_only_when_present_witness :
  genericPrint [Sample.class_with_bases] (printGenerically 2)
  = Ok (DConcat [ text "class "; text "A";
                 DConcat [text "("; joined (text ",") [text "B"; text "C"]; text ")"];
                 text ":";
                 DIndent (DConcat [line; DConcat [text "x"]]) ]).
Proof.
  apply (ClassDef_bases_only_when_present (printGenerically 2)
           [Sample.class_with_bases] Sample.class_with_bases
           [Sample.Name "B" 1 8; Sample.Name "C" 1 11]
           [Sample.Expr 2 4 (Sample.Name "x" 2 4)]
           [text "B"; text "C"] [text "x"]);
    try reflexivity; docs.
Defined.

Lemma append_empty (s : string) : (s ++ EmptyString)%string = s.
Proof.
  induction s as [| c s IH]; cbn; [reflexivity | now rewrite IH].
Qed.

Lemma flat_concat_cons (d : doc) (ds : list doc) :
  flat (DConcat (d :: ds))
  = match flat d, flat (DConcat ds) with
    | Some a, Some b => Some (a ++ b)%string
    | _, _ => None
    end.
Proof. reflexivity. Qed.

(** X13.  Outside a list or a tuple, a tuple of one element, printed to
    a document, prints as that element and nothing more, neither
    parentheses nor the comma that makes it a tuple, and the empty tuple
    prints as no text at all. *)
Theorem short_Tuple_loses_its_marks (print : printer) (p : path) (n : value) :
  getValue p = n ->
  has_kind n KTuple ->
  nullish (getParentNode p) = false ->
  is_List_or_Tuple (get (getParentNode p) "ast_type") = false ->
  (get n "elts" = VArr [] ->
   genericPrint p print = Ok (DConcat [])
   /\ flat (DConcat []) = Some EmptyString)
  /\ (forall e d,
        get n "elts" = VArr [e] ->
        print (e :: VArr [e] :: p) = Ok d ->
        is_document d = true ->
        genericPrint p print = Ok (DConcat [d])
        /\ flat (DConcat [d]) = flat d).
Proof.
  intros Hval Hkind Hparent Hno.
  assert (Hrun : forall l,
             get n "elts" = VArr l ->
             genericPrint p print
             = (printed <- mapM (fun c => print (c :: VArr l :: p)) l ;;
                join (text ", ") printed)).
  { intros l Hl. dispatch Hval Hkind.
    destruct (has_kind_object _ _ Hkind) as [fs' ->].
    unfold get_prop at 1. rewrite Hparent. cbn [bind]. rewrite Hno.
    rewrite (path_map_array print p fs' "elts" l Hval Hl).
    destruct (mapM _ l) as [printed |]; cbn [bind]; [| reflexivity].
    destruct (join (text ", ") printed); reflexivity. }
  split.
  - intros Hl. rewrite (Hrun [] Hl). split; reflexivity.
  - intros e d Hl Hd Hdoc. rewrite (Hrun [e] Hl). cbn [mapM]. rewrite Hd.
    cbn [bind]. rewrite join_ok by docs.
    split; [reflexivity |].
    rewrite flat_concat_cons. destruct (flat d) as [t |]; [| reflexivity].
    cbn. now rewrite append_empty.
Qed.

(** The hypotheses at the tuple of [x = (1,)], which prints as [1]. *)
Lemma short_Tuple_loses_its_marks_witness :
  genericPrint [get Sample.assign_single "value"; Sample.assign_single]
               (printGenerically 2)
  = Ok (DConcat [text "1"])
  /\ flat (DConcat [text "1"]) = flat (text "1").
Proof.
  apply (short_Tuple_loses_its_marks (printGenerically 2)
           [get Sample.assign_single "value"; Sample.assign_single]
           (get Sample.assign_single "value"))
    with (e := Sample.Num 1 1 5);
    try reflexivity; docs.
Defined.

(** ** Where the callback is applied *)

Lemma mapM_ext_in {A B : Type} (f g : A -> result B) (l : list A) :
  (forall x, In x l -> f x = g x) -> mapM f l = mapM g l.
Proof.
  induction l as [| x l IH]; cbn [mapM]; intros H; [reflexivity |].
  rewrite (H x (or_introl eq_refl)), IH; [reflexivity |].
  intros y Hy. apply H. now right.
Qed.

Section Locality.

Variables print1 print2 : printer.
Variable p : path.
Hypothesis same_below : forall q, child_path p q -> print1 q = print2 q.

Lemma path_call_local (k : string) :
  path_call print1 p k = path_call print2 p k.
Proof.
  unfold path_call, get_prop. destruct (nullish (getValue p)); cbn [bind];
    [reflexivity |].
  apply same_below. left. now exists k.
Qed.

Lemma path_call_at_local (k : string) (i : nat) :
  path_call_at print1 p k i = path_call_at print2 p k i.
Proof.
  unfold path_call_at, get_prop. destruct (nullish (getValue p)); cbn [bind];
    [reflexivity |].
  destruct (get_index (get (getValue p) k) i) as [c |] eqn:Hc; cbn [bind];
    [| reflexivity].
  apply same_below. right. now exists k, i, c.
Qed.

Lemma path_map_local (k : string) :
  path_map print1 p k = path_map print2 p k.
Proof.
  unfold path_map, get_prop. destruct (nullish (getValue p)); cbn [bind];
    [reflexivity |].
  destruct (get (getValue p) k) as [| | b | z | s | elts | fs] eqn:Hseq;
    try reflexivity.
  apply mapM_ext_in. intros c Hin. apply same_below. right.
  destruct (In_nth elts c VUndef Hin) as [i [_ Hi]].
  exists k, i, c. rewrite Hseq. split; [cbn [get_index]; now rewrite Hi |].
  reflexivity.
Qed.

Lemma printArguments_loop_local (argsKey defaultsKey : string)
    (rest : list value) (i j : nat) :
  printArguments_loop print1 p argsKey defaultsKey rest i j
  = printArguments_loop print2 p argsKey defaultsKey rest i j.
Proof.
  remember (List.length rest) as m eqn:Hm. revert rest i j Hm.
  induction m as [m IH] using lt_wf_ind. intros rest i j Hm.
  destruct rest as [| x after]; [reflexivity |].
  rewrite !printArguments_loop_cons, !path_call_at_local.
  destruct (path_call_at print2 p argsKey i); cbn [bind]; [| reflexivity].
  destruct after as [| next after']; [reflexivity |].
  destruct (truthy next && negb (loose_eq_arg (get next "ast_type"))).
  - destruct (path_call_at print2 p defaultsKey j); cbn [bind]; [| reflexivity].
    rewrite (IH (List.length after')) by (subst m; simpl; lia || reflexivity).
    reflexivity.
  - rewrite (IH (List.length (next :: after')))
      by (subst m; simpl; lia || reflexivity).
    reflexivity.
Qed.

Lemma printArguments_local (argsKey defaultsKey : string) :
  printArguments print1 p argsKey defaultsKey
  = printArguments print2 p argsKey defaultsKey.
Proof.
  unfold printArguments.
  destruct (_ <- get_prop (getValue p) argsKey ;; _); cbn [bind]; [| reflexivity].
  destruct (_ <- get_prop (getValue p) defaultsKey ;; _); cbn [bind];
    [| reflexivity].
  destruct (sort_by_col_offset _); cbn [bind]; [| reflexivity].
  apply printArguments_loop_local.
Qed.

End Locality.

(** X14.  [genericPrint] applies the callback to what it reads from the
    current node only: to paths that extend its own by the value of a
    property of the node, or by such a value and what it holds at an
    index.  Two callbacks that answer alike on those paths give the same
    outcome, however they differ elsewhere. *)
Theorem genericPrint_calls_back_on_children_only (print1 print2 : printer)
    (p : path) :
  (forall q, child_path p q -> print1 q = print2 q) ->
  genericPrint p print1 = genericPrint p print2.
Proof.
  intros H. unfold genericPrint.
  rewrite !(path_call_local print1 print2 p H),
          !(path_map_local print1 print2 p H),
          !(printArguments_local print1 print2 p H).
  reflexivity.
Qed.

(** The driver, and a callback that is the driver on the paths of two
    and three values and fails on all others, at [x += 1]. *)
Lemma genericPrint_calls_back_on_children_only_witness :
  genericPrint [Sample.x_plus_1] (printGenerically 2)
  = genericPrint [Sample.x_plus_1]
      (fun q => match q with
                | [_; _] | [_; _; _] => printGenerically 2 q
                | _ => Throw TypeError
                end).
Proof.
  apply (genericPrint_calls_back_on_children_only (printGenerically 2)
           (fun q => match q with
                     | [_; _] | [_; _; _] => printGenerically 2 q
                     | _ => Throw TypeError
                     end)
           [Sample.x_plus_1]).
  intros q [[k ->] | [k [i [c [_ ->]]]]]; reflexivity.
Defined.

(** ** Texts *)

(** What has a text is a document. *)
Lemma flat_document (d : doc) (t : string) :
  flat d = Some t -> is_document d = true.
Proof.
  destruct d as [v | | | | | |]; try reflexivity.
  destruct v; try discriminate. reflexivity.
Qed.

Lemma have_texts_documents (ds : list doc) (ts : list string) :
  have_texts ds ts -> documents ds.
Proof.
  intros H. induction H as [| d t ds ts Hd _ IH]; constructor;
    [exact (flat_document d t Hd) | exact IH].
Qed.

Lemma flat_join (sep : doc) (s : string) (ds : list doc) (ts : list string) :
  flat sep = Some s ->
  have_texts ds ts ->
  flat (joined sep ds) = Some (String.concat s ts).
Proof.
  intros Hsep H. unfold joined.
  induction H as [| d t ds ts Hd Hrest IH]; [reflexivity |].
  destruct Hrest as [| d2 t2 ds' ts' Hd2 Hrest'].
  - cbn [intersperse]. rewrite flat_concat_cons, Hd. cbn.
    now rewrite append_empty.
  - change (intersperse sep (d :: d2 :: ds'))
      with (d :: sep :: intersperse sep (d2 :: ds')).
    rewrite !flat_concat_cons, Hd, Hsep, IH. reflexivity.
Qed.

Lemma flat_concat (ds : list doc) (ts : list string) :
  have_texts ds ts ->
  flat (DConcat ds) = Some (String.concat EmptyString ts).
Proof.
  intros H. induction H as [| d t ds ts Hd Hrest IH]; [reflexivity |].
  rewrite flat_concat_cons, Hd, IH.
  destruct ts as [| t2 ts']; cbn; [now rewrite append_empty | reflexivity].
Qed.

(** X15.  A module prints as its statements joined by two mandatory
    breaks, with one mandatory break after them; a module with no
    statement is that one break after an empty join.  Where every
    statement has a text, the text of the module has a blank line between
    each two statements and a newline at its end. *)
Theorem Module_text (print : printer) (p : path) (n : value)
    (body : list value) (docs : list doc) :
  getValue p = n ->
  has_kind n KModule ->
  get n "body" = VArr body ->
  mapM (fun s => print (s :: VArr body :: p)) body = Ok docs ->
  documents docs ->
  genericPrint p print
  = Ok (DConcat [joined (DConcat [hardline; hardline]) docs; hardline])
  /\ (body = [] -> genericPrint p print = Ok (DConcat [DConcat []; hardline]))
  /\ forall texts,
       have_texts docs texts ->
       Sample.flat_of (genericPrint p print)
       = Some (String.concat (newline ++ newline) texts ++ newline)%string.
Proof.
  intros Hval Hkind Hbody Hdocs Hd.
  assert (Hrun : genericPrint p print
                 = Ok (DConcat [joined (DConcat [hardline; hardline]) docs;
                                hardline])).
  { dispatch Hval Hkind.
    destruct (has_kind_object _ _ Hkind) as [fs' ->].
    build.
    rewrite (path_map_array print p fs' "body" body Hval Hbody), Hdocs.
    cbn [bind]. build. reflexivity. }
  split; [exact Hrun |]. split.
  - intros ->. rewrite Hrun. injection Hdocs as <-. reflexivity.
  - intros texts Htexts. rewrite Hrun. cbn [Sample.flat_of].
    rewrite flat_concat_cons.
    rewrite (flat_join _ (newline ++ newline)%string docs texts);
      [reflexivity | reflexivity | exact Htexts].
Qed.

(** The hypotheses at a module of two statements. *)
Lemma Module_text_witness :
  genericPrint [Sample.two_statements] (printGenerically 2)
  = Ok (DConcat [joined (DConcat [hardline; hardline]) [text "x"; text "y"];
                 hardline])
  /\ ([Sample.Expr 1 0 (Sample.Name "x" 1 0);
       Sample.Expr 2 0 (Sample.Name "y" 2 0)] = [] ->
      genericPrint [Sample.two_statements] (printGenerically 2)
      = Ok (DConcat [DConcat []; hardline]))
  /\ forall texts,
       have_texts [text "x"; text "y"] texts ->
       Sample.flat_of (genericPrint [Sample.two_statements] (printGenerically 2))
       = Some (String.concat (newline ++ newline) texts ++ newline)%string.
Proof.
  apply (Module_text (printGenerically 2) [Sample.two_statements]
           Sample.two_statements
           [Sample.Expr 1 0 (Sample.Name "x" 1 0);
            Sample.Expr 2 0 (Sample.Name "y" 2 0)]
           [text "x"; text "y"]);
    try reflexivity; docs.
Defined.



Lemma substring_prefix (s t : string) :
  substring 0 (String.length s) (s ++ t) = s.
Proof.
  induction s as [| c s IH]; cbn.
  - destruct t; reflexivity.
  - now rewrite IH.
Qed.

Lemma length_append (s t : string) :
  String.length (s ++ t) = String.length s + String.length t.
Proof.
  induction s as [| c s IH]; cbn; [reflexivity | now rewrite IH].
Qed.

(** X17.  A string literal prints as one text: a double quote, the
    characters of the literal as they are, a double quote.  Taking the
    first and the last character off gives the literal back, also when
    it holds quotes or backslashes of its own: nothing is escaped. *)
Theorem Str_text_is_verbatim (print : printer) (rest : path) (n : value)
    (s : string) :
  has_kind n KStr ->
  get n "s" = VStr s ->
  genericPrint (n :: rest) print
  = Ok (text (String "034"%char (s ++ String "034"%char EmptyString)))
  /\ substring 1 (String.length s)
       (String "034"%char (s ++ String "034"%char EmptyString)) = s.
Proof.
  intros Hkind Hs.
  assert (Hval : getValue (n :: rest) = n) by reflexivity.
  split.
  - dispatch Hval Hkind. rewrite Hs. reflexivity.
  - cbn. apply substring_prefix.
Qed.

(** The hypotheses at a literal whose text is one double quote. *)
Lemma Str_text_is_verbatim_witness :
  genericPrint [VObj [("ast_type", VStr "Str"); ("s", VStr quote)]]
               (printGenerically 0)
  = Ok (text (String "034"%char (quote ++ String "034"%char EmptyString)))
  /\ substring 1 (String.length quote)
       (String "034"%char (quote ++ String "034"%char EmptyString)) = quote.
Proof.
  apply (Str_text_is_verbatim (printGenerically 0) []
           (VObj [("ast_type", VStr "Str"); ("s", VStr quote)]) quote);
    reflexivity.
Defined.

(** ** Definitions *)

Lemma printGenerically_string (depth : nat) (s : string) (rest : path) :
  printGenerically (S depth) (VStr s :: rest) = Ok (text s).
Proof.
  rewrite printGenerically_S. unfold genericPrint. cbn [getValue hd truthy].
  destruct (String.eqb_spec s EmptyString) as [-> | _]; reflexivity.
Qed.

(** X18.  A function definition prints [def], its name, the parameters
    in a group between parentheses with soft breaks inside, a colon and
    the indented body.  The name, a plain string of the tree, goes
    through the callback like a node and comes back as it is.  The
    printed parameters and statements are documents. *)
Theorem FunctionDef_layout (depth : nat) (rest : path) (n : value)
    (name : string) (body : list value) (args : doc) (bd : list doc) :
  has_kind n KFunctionDef ->
  get n "name" = VStr name ->
  get n "body" = VArr body ->
  printGenerically (S depth) (get n "args" :: n :: rest) = Ok args ->
  mapM (fun s => printGenerically (S depth) (s :: VArr body :: n :: rest)) body
  = Ok bd ->
  is_document args = true ->
  documents bd ->
  printGenerically (S (S depth)) (n :: rest)
  = Ok (DConcat
          [ text "def "; text name;
            DGroup (DConcat [ text "("; DIndent (DConcat [softline; args]);
                            softline; text ")" ]);
            text ":";
            DIndent (DConcat [line; DConcat bd]) ]).
Proof.
  intros Hkind Hname Hbody Hargs Hbd Hda Hdbd.
  assert (Hval : getValue (n :: rest) = n) by reflexivity.
  rewrite printGenerically_S. dispatch Hval Hkind.
  destruct (has_kind_object _ _ Hkind) as [fs' ->].
  rewrite !(path_call_object _ _ fs') by exact Hval.
  rewrite Hname, printGenerically_string. cbn [bind].
  rewrite Hargs. cbn [bind]. build.
  rewrite (path_map_array _ _ fs' "body" body Hval Hbody), Hbd.
  cbn [bind]. build. reflexivity.
Qed.

(** The hypotheses at [def f(a, b, c=1):] with the body [x]. *)
Lemma FunctionDef_layout_witness :
  printGenerically 4 [Sample.function_def]
  = Ok (DConcat
          [ text "def "; text "f";
            DGroup (DConcat
                     [ text "(";
                       DIndent (DConcat
                                 [ softline;
                                   joined (DConcat [text ", "; softline])
                                     [ DConcat [text "a"]; DConcat [text "b"];
                                       DConcat [text "c"; text "="; text "1"] ] ]);
                       softline; text ")" ]);
            text ":";
            DIndent (DConcat [line; DConcat [text "x"]]) ]).
Proof.
  apply (FunctionDef_layout 2 [] Sample.function_def "f"
           [Sample.Expr 2 4 (Sample.Name "x" 2 4)]);
    try reflexivity; docs.
Defined.

(** ** Reads that fail *)

(** X19.  Three reads fail before anything is printed, whatever the
    callback: a tuple asks its parent for its tag, so a tuple with no
    node above it on the path ends in a [TypeError]; a call reads [id]
    from [func], and a class [length] from [bases], so a call without
    [func] and a class without [bases] end in a [TypeError] too. *)
Theorem reads_that_fail (print : printer) (p : path) :
  (has_kind (getValue p) KTuple ->
   nullish (getParentNode p) = true ->
   genericPrint p print = Throw TypeError)
  /\ (has_kind (getValue p) KCall ->
      nullish (get (getValue p) "func") = true ->
      genericPrint p print = Throw TypeError)
  /\ (has_kind (getValue p) KClassDef ->
      nullish (get (getValue p) "bases") = true ->
      genericPrint p print = Throw TypeError).
Proof.
  repeat split; intros Hkind Hnull;
    destruct (has_kind_object _ _ Hkind) as [fs E];
    unfold genericPrint; rewrite E; cbn [truthy negb]; rewrite <- E;
    unfold has_kind in Hkind; rewrite Hkind;
    unfold get_prop at 1; rewrite Hnull; reflexivity.
Qed.

(** The hypotheses at a tuple that is the root of its path, at a call
    with no [func] and at a class with no [bases]. *)
Lemma reads_that_fail_witness :
  genericPrint [Sample.pair_1_2 0] (printGenerically 3) = Throw TypeError
  /\ genericPrint [Sample.node "Call" 1 0 [("args", VArr [])]]
                  (printGenerically 3) = Throw TypeError
  /\ genericPrint [Sample.node "ClassDef" 1 0 [("name", VStr "A"); ("body", VArr [])]]
                  (printGenerically 3) = Throw TypeError.
Proof.
  split; [| split].
  - apply (proj1 (reads_that_fail (printGenerically 3) [Sample.pair_1_2 0]));
      reflexivity.
  - apply (proj1 (proj2 (reads_that_fail (printGenerically 3)
                           [Sample.node "Call" 1 0 [("args", VArr [])]])));
      reflexivity.
  - apply (proj2 (proj2 (reads_that_fail (printGenerically 3)
                           [Sample.node "ClassDef" 1 0
                                        [("name", VStr "A"); ("body", VArr [])]])));
      try reflexivity; docs.
Defined.

(** ** The groups of a parameter list *)

(** X20.  The parameter list is the join, by [", "] and a soft break,
    of four groups in this order: the fragments of the positional
    parameters; [*] with the variadic parameter, when [vararg] is there;
    a bare [*] and the fragments of the keyword-only parameters, when
    [kwonlyargs] is not empty; [**] with the variadic keyword parameter,
    when [kwarg] is there.  Each group is decided on its own field: the
    bare [*] stands whenever there are keyword-only parameters, with or
    without [vararg].  The printed [vararg] and [kwarg] are documents. *)
Theorem arguments_groups (print : printer) (p : path) (n : value)
    (kwonly : list value) (pos kw : list doc) (va kwa : option doc) :
  getValue p = n ->
  has_kind n Karguments ->
  printArguments print p "args" "defaults" = Ok pos ->
  match va with
  | Some d => truthy (get n "vararg") = true
              /\ print (get n "vararg" :: p) = Ok d
              /\ is_document d = true
  | None => truthy (get n "vararg") = false
  end ->
  get n "kwonlyargs" = VArr kwonly ->
  (kwonly <> [] -> printArguments print p "kwonlyargs" "kw_defaults" = Ok kw) ->
  match kwa with
  | Some d => truthy (get n "kwarg") = true
              /\ print (get n "kwarg" :: p) = Ok d
              /\ is_document d = true
  | None => truthy (get n "kwarg") = false
  end ->
  genericPrint p print
  = Ok (joined (DConcat [text ", "; softline])
          (pos
           ++ match va with Some d => [DConcat [text "*"; d]] | None => [] end
           ++ match kwonly with [] => [] | _ :: _ => text "*" :: kw end
           ++ match kwa with Some d => [DConcat [text "**"; d]] | None => [] end)).
Proof.
  intros Hval Hkind Hpos Hva Hkwonly Hkw Hkwa.
  pose proof (printArguments_documents _ _ _ _ _ Hpos) as Hdpos.
  assert (Hdkw : documents match kwonly with [] => [] | _ :: _ => text "*" :: kw end).
  { destruct kwonly as [| k kwonly']; [constructor |].
    constructor; [reflexivity |].
    apply (printArguments_documents print p "kwonlyargs" "kw_defaults").
    apply Hkw. discriminate. }
  dispatch Hval Hkind.
  destruct (has_kind_object _ _ Hkind) as [fs' ->].
  rewrite Hpos, Hkwonly. cbn [bind].
  rewrite !(path_call_object print p fs') by exact Hval.
  unfold get_prop. cbn [nullish bind].
  assert (Hstar : forall parts,
             (if gt_zero (get (VArr kwonly) "length")
              then kwonly0 <- printArguments print p "kwonlyargs" "kw_defaults" ;;
                   Ok ((parts ++ [text "*"]) ++ kwonly0)
              else Ok parts)
             = Ok (parts ++ match kwonly with [] => [] | _ :: _ => text "*" :: kw end)).
  { intros parts. destruct kwonly as [| k kwonly'].
    - cbn. now rewrite app_nil_r.
    - change (gt_zero (get (VArr (k :: kwonly')) "length")) with true.
      cbv iota. rewrite Hkw by discriminate. cbn [bind].
      now rewrite <- app_assoc. }
  destruct va as [d |];
    [destruct Hva as [Ht [Hd Hdd]]; rewrite Ht, Hd | rewrite Hva];
    cbn [bind]; build; rewrite Hstar; cbn [bind];
    (destruct kwa as [d' |];
     [destruct Hkwa as [Ht' [Hd' Hdd']]; rewrite Ht', Hd' | rewrite Hkwa]);
    cbn [bind]; build; rewrite <- ?app_assoc; cbn [app]; rewrite ?app_nil_r;
    reflexivity.
Qed.

(** The hypotheses at [def f(a, *args, b=1, **kw)]. *)
Lemma arguments_groups_witness :
  genericPrint [Sample.all_groups] (printGenerically 2)
  = Ok (joined (DConcat [text ", "; softline])
          ([DConcat [text "a"]]
           ++ [DConcat [text "*"; text "args"]]
           ++ text "*" :: [DConcat [text "b"; text "="; text "1"]]
           ++ [DConcat [text "**"; text "kw"]])).
Proof.
  apply (arguments_groups (printGenerically 2) [Sample.all_groups]
           Sample.all_groups [Sample.arg "b" 1 16]
           [DConcat [text "a"]] [DConcat [text "b"; text "="; text "1"]]
           (Some (text "args")) (Some (text "kw")));
    try reflexivity; repeat split; reflexivity.
Defined.


